(** * MINI_LEX_PARSE: the lexer and the panic-mode recursive-descent parser

    A shallow embedding of [RecursiveDescentParserPanicMode2.py]: the
    regular expressions of [token_specification], the generator [lexer],
    the [Node] tree and the methods of class [Parser], followed by the
    properties established about them.

    Source text is a [string] whose characters are code points below 256.
    The generator [lexer] does nothing but yield, so it is the list of
    its tokens and the parser's [self.lexer] is the part not yet pulled.
    Python's [print] is kept as a list of lines in the parser state, its
    exceptions as the [Raise] outcome of a small state-and-error monad.
    The mutually recursive methods take fuel; [parse_tokens] gives them
    enough of it for every input.  The recursion limit of the interpreter
    and the driver code at the end of the script are not part of the
    model. *)

From Stdlib Require Import String Ascii List Bool Arith NArith Lia.
From Stdlib Require Import DecimalString Decimal Sorted.
Import ListNotations.

Local Open Scope list_scope.
Local Open Scope string_scope.

(** [l.append(x)] *)
Definition append {A : Type} (l : list A) (x : A) : list A := (l ++ [x])%list.

(* ===================================================================== *)
(** ** Tokens *)

(** [Token = namedtuple('Token', ['type', 'value', 'line_number', 'column'])] *)
Record Token : Type := mkToken {
  type : string;
  value : string;
  line_number : nat;
  column : nat
}.

(* ===================================================================== *)
(** ** Regular expressions

    The fragment of the [re] syntax that [token_specification] is written
    in: literal text, character classes, concatenation, the greedy
    quantifiers [?] on a group and [+], [*] on a class. *)

Inductive regex : Type :=
| Lit (l : string)
| Cls (p : ascii -> bool)
| Cat (r1 r2 : regex)
| Opt (r : regex)
| Plus (p : ascii -> bool)
| Star (p : ascii -> bool).

Definition code (c : ascii) : N := N_of_ascii c.

Definition in_range (lo hi : N) (c : ascii) : bool :=
  (lo <=? code c)%N && (code c <=? hi)%N.

(** [[A-Za-z]] *)
Definition is_letter (c : ascii) : bool :=
  in_range 65 90 c || in_range 97 122 c.

(** [\d] *)
Definition is_digit (c : ascii) : bool := in_range 48 57 c.

(** [[A-Za-z0-9]] *)
Definition is_alnum (c : ascii) : bool := is_letter c || is_digit c.

(** [[+-]] *)
Definition is_sign (c : ascii) : bool :=
  Ascii.eqb c "+" || Ascii.eqb c "-".

(** [[Ee]] *)
Definition is_exp (c : ascii) : bool :=
  Ascii.eqb c "E" || Ascii.eqb c "e".

(** The negated class of STRING_LITERAL: every character except the
    double quote (code 34). *)
Definition not_quote (c : ascii) : bool := negb (code c =? 34)%N.

(** [[+\-*/]] *)
Definition is_op (c : ascii) : bool :=
  Ascii.eqb c "+" || Ascii.eqb c "-" || Ascii.eqb c "*" || Ascii.eqb c "/".

(** [\s] on a [str] pattern: the characters [str.isspace] accepts, here
    those below 256 (tab to carriage return, the four separators 28-31,
    the space, NEL and the no-break space). *)
Definition is_space (c : ascii) : bool :=
  in_range 9 13 c || in_range 28 32 c || (code c =? 133)%N || (code c =? 160)%N.

(** [strip_prefix l s] is the rest of [s] after the literal [l]. *)
Fixpoint strip_prefix (l s : string) : option string :=
  match l with
  | EmptyString => Some s
  | String a l' =>
      match s with
      | EmptyString => None
      | String b s' => if Ascii.eqb a b then strip_prefix l' s' else None
      end
  end.

(** Greedy repetition of a class with backtracking: take one more
    character first, fall back on the continuation here. *)
Fixpoint star (p : ascii -> bool) (s : string)
         (k : string -> option string) : option string :=
  match s with
  | EmptyString => k EmptyString
  | String c s' =>
      if p c
      then match star p s' k with
           | Some rest => Some rest
           | None => k s
           end
      else k s
  end.

(** The backtracking matcher: [rmatch r s k] matches [r] at the start of
    [s] and hands what is left to the continuation [k]; the answer is the
    text left after the whole match. *)
Fixpoint rmatch (r : regex) (s : string)
         (k : string -> option string) : option string :=
  match r with
  | Lit l =>
      match strip_prefix l s with
      | Some s' => k s'
      | None => None
      end
  | Cls p =>
      match s with
      | String c s' => if p c then k s' else None
      | EmptyString => None
      end
  | Cat r1 r2 => rmatch r1 s (fun s' => rmatch r2 s' k)
  | Opt r' =>
      match rmatch r' s k with
      | Some rest => Some rest
      | None => k s
      end
  | Plus p =>
      match s with
      | String c s' => if p c then star p s' k else None
      | EmptyString => None
      end
  | Star p => star p s k
  end.

(** The double quote, which a Rocq string literal cannot hold undoubled. *)
Definition dquote : ascii := ascii_of_nat 34.

Definition token_specification : list (string * regex) :=
  [ ("BEGIN", Lit "BEGIN");
    ("END", Lit "END");
    ("PRINT", Lit "PRINT");
    ("FOR", Lit "FOR");
    ("TO", Lit "TO");
    ("INTEGER", Lit "INTEGER");
    ("REAL", Lit "REAL");
    ("STRING", Lit "STRING");
    ("ASSIGN", Lit ":=");
    ("COMMA", Lit ",");
    ("ID", Cat (Cls is_letter) (Star is_alnum));
    ("FLOAT",
       Cat (Opt (Cls is_sign))
      (Cat (Plus is_digit)
      (Cat (Lit ".")
      (Cat (Plus is_digit)
           (Opt (Cat (Cls is_exp)
                (Cat (Opt (Cls is_sign)) (Plus is_digit))))))));
    ("INT", Cat (Opt (Cls is_sign)) (Plus is_digit));
    ("STRING_LITERAL",
       Cat (Cls (Ascii.eqb dquote))
      (Cat (Star not_quote) (Cls (Ascii.eqb dquote))));
    ("OPERATOR", Cat (Cls is_op) (Plus is_space));
    ("WHITESPACE", Plus is_space) ].

(** [take n s]: the first [n] characters of [s]. *)
Fixpoint take (n : nat) (s : string) : string :=
  match n, s with
  | S n', String c s' => String c (take n' s')
  | _, _ => EmptyString
  end.

(** The text a match covers, from the input and what the match left. *)
Definition matched (s rest : string) : string :=
  take (String.length s - String.length rest) s.

(** [token_pattern] is the alternation of one named group per entry, in
    the order of the list: the first alternative that matches at the
    position decides.  The answer is the name of the group that took
    part, its text and the rest of the input. *)
Fixpoint match_alternatives (spec : list (string * regex)) (s : string)
  : option (string * string * string) :=
  match spec with
  | [] => None
  | (name, r) :: spec' =>
      match rmatch r s Some with
      | Some rest => Some (name, matched s rest, rest)
      | None => match_alternatives spec' s
      end
  end.

Definition token_pattern (s : string) : option (string * string * string) :=
  match_alternatives token_specification s.

(** [match.groupdict()]: every group name in the order of the pattern,
    with the text of the group that took part and [None] for the rest. *)
Definition groupdict (name v : string) : list (string * option string) :=
  map (fun nr => (fst nr, if String.eqb (fst nr) name then Some v else None))
      token_specification.

(** [re.finditer(token_pattern, input_code)]: the successive matches,
    left to right, without overlap; a position where nothing matches is
    passed over.  [skip] counts the characters still covered by the last
    match.  No alternative matches the empty text, so no match is empty. *)
Fixpoint finditer_from (s : string) (skip : nat)
  : list (list (string * option string)) :=
  match s with
  | EmptyString => []
  | String _ s' =>
      match skip with
      | S n => finditer_from s' n
      | O =>
          match token_pattern s with
          | Some (name, v, _) =>
              groupdict name v :: finditer_from s' (String.length v - 1)
          | None => finditer_from s' 0
          end
      end
  end.

Definition finditer (s : string) : list (list (string * option string)) :=
  finditer_from s 0.

(** The inner [for name, value in match.groupdict().items()] of [lexer]:
    the tokens it yields and the column it leaves. *)
Fixpoint lexer_groups (items : list (string * option string))
         (line_number column : nat) : list Token * nat :=
  match items with
  | [] => ([], column)
  | (name, v) :: items' =>
      match v with
      | Some text =>
          if negb (String.eqb text "") && negb (String.eqb name "WHITESPACE")
          then
            let (toks, column') :=
              lexer_groups items' line_number (column + String.length text) in
            (mkToken name text line_number column :: toks, column')
          else lexer_groups items' line_number column
      | None => lexer_groups items' line_number column
      end
  end.

(** The outer [for match in re.finditer(...)] of [lexer]. *)
Fixpoint lexer_matches (ms : list (list (string * option string)))
         (line_number column : nat) : list Token :=
  match ms with
  | [] => []
  | m :: ms' =>
      (fst (lexer_groups m line_number column)
         ++ lexer_matches ms' (line_number + 1) 1)%list
  end.

(** [lexer(input_code)], as the list of the tokens the generator yields. *)
Definition lexer (input_code : string) : list Token :=
  lexer_matches (finditer input_code) 1 1.

(* ===================================================================== *)
(** ** The syntax tree *)

(** What a [children] list can hold: a [Node], and also what the parser
    puts there directly, a [Token] (under [Value]) or [None] (a missing
    expression, or the current token at the end of the input). *)
#[warnings="-register-all"] Inductive Obj : Type :=
| Node (type : string) (children : list Obj) (value : option string)
| Tok (t : Token)
| PyNone.

Definition add_child (node child : Obj) : Obj :=
  match node with
  | Node ty children v => Node ty (append children child) v
  | _ => node
  end.

Definition is_leaf (node : Obj) : bool :=
  match node with
  | Node _ [] _ => true
  | _ => false
  end.

(** The current token as an element of a [children] list. *)
Definition obj_of_token (t : option Token) : Obj :=
  match t with
  | Some tok => Tok tok
  | None => PyNone
  end.

(** The exceptions the parser lets escape. *)
Inductive exn : Type :=
| SyntaxError (msg : string)
| AttributeError (attr : string)
| TypeError (msg : string)
| StopIteration.

(** [str(n)] for a line number. *)
Definition str_of_nat (n : nat) : string :=
  NilEmpty.string_of_uint (Nat.to_uint n).

(** How an f-string shows a value that may be [None]. *)
Definition fmt (v : option string) : string :=
  match v with
  | Some s => s
  | None => "None"
  end.

Definition newline : string := String (ascii_of_nat 10) "".

(** [ty in (...)] on a tuple or set of type names. *)
Definition type_in (ty : string) (names : list string) : bool :=
  existsb (String.eqb ty) names.

(* ===================================================================== *)
(** ** The parser *)

Module Parser.

(** The attributes of a [Parser] object.  [lexer] is what the generator
    has still to yield; [stdout] collects the printed lines. *)
Record t : Type := mk {
  lexer : list Token;
  current_token : option Token;
  panic_mode : bool;
  stdout : list string
}.

(** [Parser(lexer)] *)
Definition init (toks : list Token) : t :=
  mk toks None false [].

(** A call either returns a value and the new state, raises, or has used
    up the recursion budget of the model. *)
Inductive outcome (A : Type) : Type :=
| Return (a : A) (self : t)
| Raise (e : exn)
| Fuel.

Arguments Return {A} a self.
Arguments Raise {A} e.
Arguments Fuel {A}.

Definition M (A : Type) : Type := t -> outcome A.

Definition ret {A} (a : A) : M A := fun self => Return a self.

Definition bind {A B} (c : M A) (k : A -> M B) : M B :=
  fun self =>
    match c self with
    | Return a self' => k a self'
    | Raise e => Raise e
    | Fuel => Fuel
    end.

Definition raise {A} (e : exn) : M A := fun _ => Raise e.

Definition get : M t := fun self => Return self self.

Notation "x <- c1 ;; c2" := (bind c1 (fun x => c2))
  (at level 61, c1 at next level, right associativity).
Notation "c1 ;; c2" := (bind c1 (fun _ => c2))
  (at level 61, right associativity).

Definition print (line : string) : M unit :=
  fun self =>
    Return tt (mk (lexer self) (current_token self) (panic_mode self)
                  (append (stdout self) line)).

Definition set_panic_mode (b : bool) : M unit :=
  fun self =>
    Return tt (mk (lexer self) (current_token self) b (stdout self)).

(** [self.current_token = next(self.lexer, None)] *)
Definition advance : M unit :=
  fun self =>
    match lexer self with
    | [] => Return tt (mk [] None (panic_mode self) (stdout self))
    | tok :: rest => Return tt (mk rest (Some tok) (panic_mode self) (stdout self))
    end.

(** The skipping loops
    [while self.current_token and self.current_token.type <not wanted>:
       self.current_token = next(self.lexer, None)],
    printing [Skipping: ...] first when [loud]. *)
Fixpoint skip_loop (wanted : string -> bool) (loud : bool)
         (cur : option Token) (lex : list Token) (out : list string)
  : option Token * list Token * list string :=
  match cur with
  | None => (None, lex, out)
  | Some tok =>
      if wanted (type tok) then (cur, lex, out)
      else
        let out' := if loud then append out ("Skipping: " ++ type tok) else out in
        match lex with
        | [] => (None, [], out')
        | tok' :: lex' => skip_loop wanted loud (Some tok') lex' out'
        end
  end.

Definition skip_until (wanted : string -> bool) (loud : bool) : M unit :=
  fun self =>
    match skip_loop wanted loud (current_token self) (lexer self) (stdout self) with
    | (cur, lex, out) => Return tt (mk lex cur (panic_mode self) out)
    end.

Definition consume (expected_type : string) : M unit :=
  self <- get ;;
  if panic_mode self then
    skip_until (fun ty => String.eqb ty expected_type) true ;;
    self <- get ;;
    match current_token self with
    | Some tok =>
        if String.eqb (type tok) expected_type
        then set_panic_mode false ;; advance
        else advance
    | None => advance
    end
  else
    match current_token self with
    | Some tok =>
        if String.eqb (type tok) expected_type
        then print ("Consuming: " ++ type tok) ;; advance
        else
          set_panic_mode true ;;
          print ("Unexpected token '" ++ type tok ++ "' at line "
                 ++ str_of_nat (line_number tok) ++ ". Expected '"
                 ++ expected_type ++ "'.") ;;
          advance
    | None =>
        if String.eqb expected_type "END"
        then ret tt
        else
          let line_number := 1 in
          raise (SyntaxError ("Unexpected end of input at line "
                                 ++ str_of_nat line_number ++ ". Expected '"
                                 ++ expected_type ++ "'."))
    end.

Definition term_start : list string := ["ID"; "INT"; "FLOAT"; "STRING_LITERAL"].

Definition term : M Obj :=
  self <- get ;;
  match current_token self with
  | None => raise (AttributeError "type")
  | Some cur_token =>
      if type_in (type cur_token) term_start
      then consume (type cur_token) ;; ret (Node "Value" [Tok cur_token] None)
      else raise (SyntaxError ("Unexpected token: " ++ type cur_token))
  end.

(** The [while] of [expression] is an [if] here: every path through its
    body leaves the method, by [return], by an exception of [consume] or
    [term], or at the end by the [TypeError] of building a [Token] from
    two of its four fields. *)
Definition expression : M Obj :=
  left_term <- term ;;
  self <- get ;;
  match current_token self with
  | Some operator =>
      if negb (panic_mode self) && type_in (type operator) ["+"; "-"; "*"; "/"]
      then
        consume "OPERATOR" ;;
        self <- get ;;
        match current_token self with
        | None => raise (AttributeError "type")
        | Some tok =>
            if negb (type_in (type tok) term_start)
            then set_panic_mode true ;; ret (Node "ErrorRecoveryExpression" [] None)
            else
              right_term <- term ;;
              raise (TypeError "Token.__new__() missing 2 required positional arguments: 'line_number' and 'column'")
        end
      else ret left_term
  | None => ret left_term
  end.

Fixpoint var_declaration_while (fuel : nat) (var_type : string)
         (var_nodes : list Obj) : M (list Obj) :=
  match fuel with
  | O => fun _ => Fuel
  | S fuel' =>
      self <- get ;;
      match current_token self with
      | None => raise (AttributeError "type")
      | Some tok =>
          if String.eqb (type tok) "COMMA"
          then
            consume "COMMA" ;;
            self <- get ;;
            match current_token self with
            | None => raise (AttributeError "value")
            | Some name =>
                consume "ID" ;;
                var_declaration_while fuel' var_type
                  (append var_nodes (Node var_type [] (Some (value name))))
            end
          else ret var_nodes
      end
  end.

Definition var_declaration (fuel : nat) : M Obj :=
  self <- get ;;
  match current_token self with
  | None => raise (AttributeError "type")
  | Some tok =>
      let var_type := type tok in
      consume var_type ;;
      self <- get ;;
      match current_token self with
      | None => raise (AttributeError "value")
      | Some name =>
          let var_nodes := [Node var_type [] (Some (value name))] in
          consume "ID" ;;
          var_nodes <- var_declaration_while fuel var_type var_nodes ;;
          ret (Node "VarDeclaration" var_nodes None)
      end
  end.

Definition at_type (self : t) (names : list string) : bool :=
  match current_token self with
  | Some tok => type_in (type tok) names
  | None => false
  end.

Fixpoint assignment_while (fuel : nat) (assignment_nodes : list Obj)
  : M (list Obj) :=
  match fuel with
  | O => fun _ => Fuel
  | S fuel' =>
      self <- get ;;
      match current_token self with
      | Some variable_token =>
          if negb (panic_mode self) && String.eqb (type variable_token) "ID"
          then
            let variable_node := Node "Variable" [] (Some (value variable_token)) in
            consume "ID" ;;
            self <- get ;;
            match current_token self with
            | None => raise (AttributeError "type")
            | Some tok =>
                expression_node <-
                  (if String.eqb (type tok) "ASSIGN"
                   then consume "ASSIGN" ;; expression
                   else ret PyNone) ;;
                let assignment_node :=
                  Node "Assignment" [variable_node; expression_node] None in
                let assignment_node :=
                  add_child assignment_node (Node "Value" [Tok variable_token] None) in
                assignment_while fuel' (append assignment_nodes assignment_node)
            end
          else ret assignment_nodes
      | None => ret assignment_nodes
      end
  end.

Definition assignment (fuel : nat) : M Obj :=
  assignment_nodes <- assignment_while fuel [] ;;
  ret (Node "Assignments" assignment_nodes None).

Definition for_loop (statement_list : M Obj)
  : M (Obj * option string * option string) :=
  consume "FOR" ;;
  self <- get ;;
  if panic_mode self then
    skip_until (fun ty => type_in ty ["ID"; "END"]) false ;;
    ret (Node "ErrorRecoveryForLoop" [] None, None, None)
  else
    match current_token self with
    | None => raise (AttributeError "type")
    | Some start_val_token =>
        if String.eqb (type start_val_token) "ID" then
          let start_val := value start_val_token in
          consume "ID" ;;
          consume "ASSIGN" ;;
          start_expression <- expression ;;
          consume "TO" ;;
          self <- get ;;
          match current_token self with
          | None => raise (AttributeError "value")
          | Some end_val_token =>
              let end_value := value end_val_token in
              _ <- expression ;;
              statements_node <- statement_list ;;
              consume "END" ;;
              ret (Node "ForLoop" [statements_node] None,
                   Some start_val, Some end_value)
          end
        else
          skip_until (fun ty => type_in ty ["ID"; "END"]) false ;;
          ret (Node "ErrorRecoveryForLoop" [] None, None, None)
    end.

Definition statement_start : list string :=
  ["PRINT"; "INTEGER"; "REAL"; "STRING"; "ID"; "FOR"].

Definition statement (fuel : nat) (statement_list : M Obj) : M Obj :=
  self <- get ;;
  if panic_mode self then
    skip_until (fun ty => type_in ty (statement_start ++ ["END"])%list) false ;;
    ret (Node "ErrorRecoveryStatement" [] None)
  else
    match current_token self with
    | None => raise (AttributeError "type")
    | Some tok =>
        if String.eqb (type tok) "PRINT" then
          consume "PRINT" ;;
          self <- get ;;
          let string_literal_node :=
            Node "StringLiteral"
                 [Node "Value" [obj_of_token (current_token self)] None] None in
          consume "STRING_LITERAL" ;;
          ret (Node "PrintStatement" [string_literal_node] None)
        else if type_in (type tok) ["INTEGER"; "REAL"; "STRING"] then
          var_declaration_node <- var_declaration fuel ;;
          ret (Node "VarDeclaration" [var_declaration_node] None)
        else if String.eqb (type tok) "ID" then
          assignment_node <- assignment fuel ;;
          ret (Node "Assignment" [assignment_node] None)
        else if String.eqb (type tok) "FOR" then
          r <- for_loop statement_list ;;
          match r with
          | (for_loop_node, start_value, end_value) =>
              ret (Node ("START : " ++ fmt start_value ++ newline
                         ++ "END : " ++ fmt end_value)
                        [for_loop_node] None)
          end
        else raise (SyntaxError ("Unexpected token: " ++ type tok))
    end.

(** The loop of [statement_list]; the statement list of a nested [FOR]
    body is the same loop on one unit of fuel less. *)
Fixpoint statement_list_while (fuel : nat) (statements_node : Obj) : M Obj :=
  match fuel with
  | O => fun _ => Fuel
  | S fuel' =>
      self <- get ;;
      if negb (panic_mode self) && at_type self statement_start
      then
        statement_node <-
          statement fuel' (statement_list_while fuel' (Node "Statements" [] None)) ;;
        statement_list_while fuel' (add_child statements_node statement_node)
      else ret statements_node
  end.

Definition statement_list (fuel : nat) : M Obj :=
  statement_list_while fuel (Node "Statements" [] None).

Definition program (fuel : nat) : M Obj :=
  let program_node := Node "Program" [] None in
  consume "BEGIN" ;;
  statements_node <- statement_list fuel ;;
  skip_until (fun ty => type_in ty ["END"; "BEGIN"]) true ;;
  self <- get ;;
  (if at_type self ["BEGIN"]
   then print "Nested 'BEGIN' found. Error recovery may not be complete."
   else ret tt) ;;
  self <- get ;;
  (if at_type self ["END"]
   then consume "END"
   else print "Missing 'END'. Error recovery may not be complete.") ;;
  ret (add_child program_node statements_node).

(** [parse]: the first [next(self.lexer)] has no default and raises
    [StopIteration] on an exhausted generator. *)
Definition parse (fuel : nat) : M Obj :=
  fun self =>
    match lexer self with
    | [] => Raise StopIteration
    | tok :: rest =>
        program fuel (mk rest (Some tok) (panic_mode self) (stdout self))
    end.

End Parser.

(** [Parser(lexer(input_code)).parse()] on a given token sequence and on a
    source text; one unit of fuel per token and one more is enough. *)
Definition parse_tokens (toks : list Token) : Parser.outcome Obj :=
  Parser.parse (S (length toks)) (Parser.init toks).

Definition parse_source (input_code : string) : Parser.outcome Obj :=
  parse_tokens (lexer input_code).



(* ===================================================================== *)
(** ** Vocabulary of the statements *)

(** The keywords: the first eight entries of [token_specification]. *)
Definition keywords : list string := map fst (firstn 8 token_specification).

(** The pattern of the [ID] entry. *)
Definition ID_pattern : regex := Cat (Cls is_letter) (Star is_alnum).

(** The names of the groups of [token_pattern]. *)
Definition group_names : list string := map fst token_specification.

(** What the inner loop of [lexer] yields for one match. *)
Definition emitted (name v : string) (line col : nat) : list Token :=
  if negb (String.eqb v "") && negb (String.eqb name "WHITESPACE")
  then [mkToken name v line col]
  else [].

(** [all_chars p s]: every character of [s] is in the class [p]. *)
Fixpoint all_chars (p : ascii -> bool) (s : string) : bool :=
  match s with
  | EmptyString => true
  | String c s' => p c && all_chars p s'
  end.

(** The least number of characters a match of [r] covers. *)
Fixpoint min_len (r : regex) : nat :=
  match r with
  | Lit l => String.length l
  | Cls _ => 1
  | Cat r1 r2 => min_len r1 + min_len r2
  | Opt _ => 0
  | Plus _ => 1
  | Star _ => 0
  end.

(** [leaves k n]: what the continuation [k] answers is the input less a
    prefix of at least [n] characters. *)
Definition leaves (k : string -> option string) (n : nat) : Prop :=
  forall s rest, k s = Some rest ->
                 exists u, s = u ++ rest /\ n <= String.length u.

(** [q body]: the text [body] between two double quotes. *)
Definition q (body : string) : string :=
  String dquote (body ++ String dquote "").

(** The symbols the loop of [expression] looks for in a token type. *)
Definition arithmetic_symbols : list string := ["+"; "-"; "*"; "/"].

Notation "x <- c1 ;; c2" := (Parser.bind c1 (fun x => c2))
  (at level 61, c1 at next level, right associativity).
Notation "c1 ;; c2" := (Parser.bind c1 (fun _ => c2))
  (at level 61, right associativity).

(** The parser state in which the tokens [toks] are still unread: the
    first one is the current token, the others are with the generator. *)
Definition reading (toks : list Token) (panic : bool) (out : list string)
  : Parser.t :=
  match toks with
  | [] => Parser.mk [] None panic out
  | tok :: rest => Parser.mk rest (Some tok) panic out
  end.

(** The unread tokens of a state, and how many they are: the position of
    the token cursor, counted from the end of the input. *)
Definition pending (self : Parser.t) : list Token :=
  match Parser.current_token self with
  | Some tok => tok :: Parser.lexer self
  | None => Parser.lexer self
  end.

Definition remaining (self : Parser.t) : nat := length (pending self).

(** Once the parser has pulled from its generator, a missing current
    token means the generator is exhausted. *)
Definition generator_invariant (self : Parser.t) : Prop :=
  Parser.current_token self = None -> Parser.lexer self = [].

(** The line the loud skipping loops print for a token. *)
Definition skipping (t : Token) : string := "Skipping: " ++ type t.

Definition is_type (expected : string) (ty : string) : bool :=
  String.eqb ty expected.

(** The tokens of [, name , name ...]. *)
Definition comma_names (more : list (Token * Token)) : list Token :=
  flat_map (fun p => [fst p; snd p]) more.

(** The leaf of a declared name. *)
Definition declared (var_type : string) (name : Token) : Obj :=
  Node var_type [] (Some (value name)).

Definition well_typed_pair (p : Token * Token) : Prop :=
  type (fst p) = "COMMA" /\ type (snd p) = "ID".


(** The lines [consume] prints while a declaration is read. *)
Definition declaration_log (var_type : Token) (more : list (Token * Token))
  : list string :=
  ("Consuming: " ++ type var_type) :: "Consuming: ID"
    :: flat_map (fun _ => ["Consuming: COMMA"; "Consuming: ID"]) more.

(** [starts_with k v]: the text [v] begins with [k]. *)
Definition starts_with (k v : string) : bool :=
  match strip_prefix k v with
  | Some _ => true
  | None => false
  end.

(** The characters some alternative of [token_pattern] can begin with. *)
Definition begins_token (c : ascii) : bool :=
  is_letter c || is_digit c || is_op c || is_space c
  || Ascii.eqb c dquote || Ascii.eqb c ":" || Ascii.eqb c ",".

(** What [program] does after its statement list: skip to [END] or
    [BEGIN], report, consume the [END], return the [Program] node. *)
Definition program_tail (statements_node : Obj) : Parser.M Obj :=
  Parser.skip_until (fun ty => type_in ty ["END"; "BEGIN"]) true ;;
  self <- Parser.get ;;
  (if Parser.at_type self ["BEGIN"]
   then Parser.print "Nested 'BEGIN' found. Error recovery may not be complete."
   else Parser.ret tt) ;;
  self <- Parser.get ;;
  (if Parser.at_type self ["END"]
   then Parser.consume "END"
   else Parser.print "Missing 'END'. Error recovery may not be complete.") ;;
  Parser.ret (add_child (Node "Program" [] None) statements_node).

(** The node of a [PRINT] statement whose payload is [payload]. *)
Definition print_statement (payload : Obj) : Obj :=
  Node "PrintStatement"
       [Node "StringLiteral" [Node "Value" [payload] None] None] None.

(** The line [consume] prints for a token it did not expect. *)
Definition unexpected (tok : Token) (expected : string) : string :=
  "Unexpected token '" ++ type tok ++ "' at line "
  ++ str_of_nat (line_number tok) ++ ". Expected '" ++ expected ++ "'.".

(** The node of one assignment [name := term], or of a bare [name]. *)
Definition assignment_node (name : Token) (expression_node : Obj) : Obj :=
  Node "Assignment"
       [Node "Variable" [] (Some (value name)); expression_node;
        Node "Value" [Tok name] None] None.

(** The first token of a sequence, if any, is not typed [ty] and not by
    an arithmetic symbol. *)
Definition stops_chain (tail : list Token) : Prop :=
  match tail with
  | t :: _ => type t <> "ID" /\ type_in (type t) arithmetic_symbols = false
  | [] => True
  end.

Definition not_arithmetic (tail : list Token) : Prop :=
  match tail with
  | t :: _ => type_in (type t) arithmetic_symbols = false
  | [] => True
  end.

(** The tokens of a chain of assignments [name := term], the nodes the
    parser builds for them and the lines it prints. *)
Definition chain_tokens (chain : list (Token * Token * Token)) : list Token :=
  flat_map (fun x => [fst (fst x); snd (fst x); snd x]) chain.

Definition chain_nodes (chain : list (Token * Token * Token)) : list Obj :=
  map (fun x => assignment_node (fst (fst x)) (Node "Value" [Tok (snd x)] None))
      chain.

Definition chain_log (chain : list (Token * Token * Token)) : list string :=
  flat_map (fun x => ["Consuming: ID"; "Consuming: ASSIGN";
                      "Consuming: " ++ type (snd x)]) chain.

Definition well_formed_assignment (x : Token * Token * Token) : Prop :=
  type (fst (fst x)) = "ID"
  /\ type (snd (fst x)) = "ASSIGN"
  /\ type_in (type (snd x)) Parser.term_start = true.

(** The exceptions the parser raises on purpose or by reading an
    attribute of [None]. *)
Definition parser_error (e : exn) : Prop :=
  match e with
  | SyntaxError _ | AttributeError _ => True
  | TypeError _ | StopIteration => False
  end.

(** No unread token is typed by an arithmetic symbol. *)
Definition clean (self : Parser.t) : Prop :=
  Forall (fun t => type_in (type t) arithmetic_symbols = false) (pending self).

(** [tame c self]: from a clean state, [c] returns in a clean state or
    raises a [parser_error]. *)
Definition tame {A} (c : Parser.M A) (self : Parser.t) : Prop :=
  clean self ->
  match c self with
  | Parser.Return _ self' => clean self'
  | Parser.Raise e => parser_error e
  | Parser.Fuel => True
  end.

(** The header of a [FOR] loop and the lines printed while it is read. *)
Definition for_header (f name asg t1 to t2 : Token) : list Token :=
  [f; name; asg; t1; to; t2].

Definition for_header_log (t1 t2 : Token) : list string :=
  ["Consuming: FOR"; "Consuming: ID"; "Consuming: ASSIGN";
   "Consuming: " ++ type t1; "Consuming: TO"; "Consuming: " ++ type t2].

(** The texts a pattern describes, whatever the matching strategy. *)
Inductive matches : regex -> string -> Prop :=
| matches_Lit l : matches (Lit l) l
| matches_Cls (p : ascii -> bool) c :
    p c = true -> matches (Cls p) (String c "")
| matches_Cat r1 r2 u1 u2 :
    matches r1 u1 -> matches r2 u2 -> matches (Cat r1 r2) (u1 ++ u2)
| matches_Opt_none r : matches (Opt r) ""
| matches_Opt_some r u : matches r u -> matches (Opt r) u
| matches_Plus (p : ascii -> bool) c u :
    p c = true -> all_chars p u = true -> matches (Plus p) (String c u)
| matches_Star (p : ascii -> bool) u :
    all_chars p u = true -> matches (Star p) u.

(** [keeps c self]: if the generator invariant holds in [self], it holds
    in the state [c] returns. *)
Definition keeps {A} (c : Parser.M A) (self : Parser.t) : Prop :=
  generator_invariant self ->
  match c self with
  | Parser.Return _ self' => generator_invariant self'
  | _ => True
  end.

(** A token that the skipping loop of [program] passes over. *)
Definition skipped_by_program (t : Token) : Prop :=
  type_in (type t) ["END"; "BEGIN"] = false.

(** [bounded c self b]: from [self], the call [c] does not run out of
    fuel, and if it returns, at most [b] tokens are left unread. *)
Definition bounded {A} (c : Parser.M A) (self : Parser.t) (b : nat) : Prop :=
  match c self with
  | Parser.Return _ self' => remaining self' <= b
  | Parser.Raise _ => True
  | Parser.Fuel => False
  end.

(** The recovery branch of [for_loop]. *)
Definition recovery_for_loop : Parser.M (Obj * option string * option string) :=
  Parser.skip_until (fun ty => type_in ty ["ID"; "END"]) false ;;
  Parser.ret (Node "ErrorRecoveryForLoop" [] None, None, None).

(** [refines c1 c2]: wherever [c1] does not run out of fuel, [c2] has
    the same outcome. *)
Definition refines {A} (c1 c2 : Parser.M A) : Prop :=
  forall self, c1 self <> Parser.Fuel -> c1 self = c2 self.

(* ===================================================================== *)
(** ** Properties of the lexer *)

Lemma take_app (a b : string) : take (String.length a) (a ++ b) = a.
Proof.
  induction a as [|c a IH]; simpl.
  - destruct b; reflexivity.
  - now rewrite IH.
Qed.

Lemma length_app (a b : string) :
  String.length (a ++ b) = String.length a + String.length b.
Proof. induction a as [|c a IH]; simpl; [reflexivity | now rewrite IH]. Qed.

Lemma matched_app (a b : string) : matched (a ++ b) b = a.
Proof.
  unfold matched. rewrite length_app.
  replace (String.length a + String.length b - String.length b)
    with (String.length a) by lia.
  apply take_app.
Qed.

Lemma finditer_from_skip (a b : string) :
  finditer_from (a ++ b) (String.length a) = finditer_from b 0.
Proof. induction a as [|c a IH]; simpl; [reflexivity | exact IH]. Qed.

Lemma token_pattern_keyword (k rest : string) :
  In k keywords -> token_pattern (k ++ rest) = Some (k, k, rest).
Proof.
  intros Hk.
  assert (H : token_pattern (k ++ rest) = Some (k, matched (k ++ rest) rest, rest)).
  { cbv [keywords token_specification firstn map fst In] in Hk.
    repeat (destruct Hk as [<- | Hk]; [reflexivity |]).
    contradiction. }
  now rewrite matched_app in H.
Qed.


Lemma append_nil_r (a : string) : a ++ "" = a.
Proof. induction a as [|c a IH]; simpl; [reflexivity | now rewrite IH]. Qed.

Lemma append_assoc (a b c : string) : (a ++ b) ++ c = a ++ (b ++ c).
Proof. induction a as [|x a IH]; simpl; [reflexivity | now rewrite IH]. Qed.

Lemma finditer_from_match (name a b : string) :
  token_pattern (a ++ b) = Some (name, a, b) ->
  a <> "" ->
  finditer_from (a ++ b) 0 = groupdict name a :: finditer_from b 0.
Proof.
  intros H Ha. destruct a as [|c a]; [congruence |].
  change (finditer_from (String c a ++ b) 0)
    with (match token_pattern (String c a ++ b) with
          | Some (name, v, _) =>
              groupdict name v :: finditer_from (a ++ b) (String.length v - 1)
          | None => finditer_from (a ++ b) 0
          end).
  rewrite H.
  replace (String.length (String c a) - 1) with (String.length a)
    by (simpl; lia).
  now rewrite finditer_from_skip.
Qed.

Lemma lexer_groups_groupdict (name v : string) (line col : nat) :
  In name group_names ->
  fst (lexer_groups (groupdict name v) line col) = emitted name v line col.
Proof.
  intros Hn. cbv [group_names token_specification map fst In] in Hn.
  unfold emitted.
  repeat (destruct Hn as [<- | Hn];
          [ cbv [groupdict token_specification map fst];
            simpl; destruct (String.eqb v ""); reflexivity |]).
  contradiction.
Qed.

Lemma match_alternatives_name spec s name v rest :
  match_alternatives spec s = Some (name, v, rest) ->
  In name (map fst spec).
Proof.
  induction spec as [|[n r] spec IH]; simpl; [discriminate |].
  destruct (rmatch r s Some).
  - intros [= <- _ _]. now left.
  - intros H. right. now apply IH.
Qed.

Lemma token_pattern_name s name v rest :
  token_pattern s = Some (name, v, rest) -> In name group_names.
Proof. apply match_alternatives_name. Qed.

Lemma finditer_from_cons (c : ascii) (s : string) :
  finditer_from (String c s) 0
  = match token_pattern (String c s) with
    | Some (name, v, _) =>
        groupdict name v :: finditer_from s (String.length v - 1)
    | None => finditer_from s 0
    end.
Proof. reflexivity. Qed.

Lemma lexer_matches_cons m ms (line col : nat) :
  lexer_matches (m :: ms) line col
  = (fst (lexer_groups m line col) ++ lexer_matches ms (line + 1) 1)%list.
Proof. reflexivity. Qed.

(** Every token of the lexer is the text of a match of [token_pattern]
    somewhere in the input, typed by the group that matched, and its
    column is the one the loop started the match with. *)
Lemma lexer_matches_In (s : string) :
  forall skip line col t,
    In t (lexer_matches (finditer_from s skip) line col) ->
    (exists s' rest, token_pattern s' = Some (type t, value t, rest))
    /\ (column t = col \/ column t = 1).
Proof.
  induction s as [|c s IH]; intros skip line col t; [simpl; tauto |].
  destruct skip as [|n]; [| now apply IH].
  rewrite finditer_from_cons.
  destruct (token_pattern (String c s)) as [[[name v] rest]|] eqn:E.
  - rewrite lexer_matches_cons.
    rewrite (lexer_groups_groupdict name v line col (token_pattern_name _ _ _ _ E)).
    intros Hin. apply in_app_or in Hin. destruct Hin as [Hin | Hin].
    + unfold emitted in Hin.
      destruct (negb (String.eqb v "") && negb (String.eqb name "WHITESPACE"));
        [| contradiction].
      destruct Hin as [<- | []]. cbn [type value column]. split; [| now left].
      now exists (String c s), rest.
    + apply IH in Hin. destruct Hin as [Hm Hc]. split; [exact Hm |].
      right. destruct Hc as [Hc | Hc]; exact Hc.
  - intros Hin. apply IH in Hin. destruct Hin as [Hm Hc]. split; [exact Hm |].
    destruct Hc as [Hc | Hc]; [now left | now right].
Qed.

Lemma lexer_In (s : string) (t : Token) :
  In t (lexer s) ->
  (exists s' rest, token_pattern s' = Some (type t, value t, rest))
  /\ column t = 1.
Proof.
  intros Hin. apply lexer_matches_In in Hin.
  destruct Hin as [Hm Hc]. split; [exact Hm | tauto].
Qed.

Lemma star_inv p s k rest :
  star p s k = Some rest ->
  exists a b, s = a ++ b /\ all_chars p a = true /\ k b = Some rest.
Proof.
  revert rest. induction s as [|c s IH]; intros rest; simpl.
  - intros H. now exists "", "".
  - destruct (p c) eqn:Hp.
    + destruct (star p s k) as [r|] eqn:E.
      * intros [= <-]. destruct (IH r eq_refl) as (a & b & -> & Ha & Hk).
        exists (String c a), b. simpl. now rewrite Hp, Ha.
      * intros H. now exists "", (String c s).
    + intros H. now exists "", (String c s).
Qed.

Lemma star_all p s : all_chars p s = true -> star p s Some = Some "".
Proof.
  induction s as [|c s IH]; simpl; [reflexivity |].
  intros H. apply andb_prop in H. destruct H as [Hc Hs].
  now rewrite Hc, (IH Hs).
Qed.

Lemma star_total p s : star p s Some <> None.
Proof.
  induction s as [|c s IH]; simpl; [discriminate |].
  destruct (p c); [| discriminate].
  destruct (star p s Some); discriminate.
Qed.

(** *** A match is a non-empty prefix of the input *)

Lemma strip_prefix_app (l s s' : string) :
  strip_prefix l s = Some s' -> s = l ++ s'.
Proof.
  revert s. induction l as [|a l IH]; intros s; simpl.
  - now intros [= ->].
  - destruct s as [|b s]; [discriminate |].
    destruct (Ascii.eqb a b) eqn:E; [| discriminate].
    apply Ascii.eqb_eq in E. subst b. intros H. now rewrite (IH _ H).
Qed.

Lemma star_leaves p k n : leaves k n -> leaves (fun s => star p s k) n.
Proof.
  intros Hk s rest H. apply star_inv in H.
  destruct H as (a & b & -> & _ & Hb). apply Hk in Hb.
  destruct Hb as (u & -> & Hu). exists (a ++ u).
  rewrite append_assoc, length_app. split; [reflexivity | lia].
Qed.

Lemma rmatch_leaves (r : regex) :
  forall k n, leaves k n -> leaves (fun s => rmatch r s k) (n + min_len r).
Proof.
  induction r as [l|p|r1 IH1 r2 IH2|r IH|p|p]; intros k n Hk s rest;
    cbn [rmatch min_len].
  - destruct (strip_prefix l s) as [s'|] eqn:E; [| discriminate].
    apply strip_prefix_app in E. subst s. intros H. apply Hk in H.
    destruct H as (u & -> & Hu). exists (l ++ u).
    rewrite append_assoc, length_app. split; [reflexivity | lia].
  - destruct s as [|c s]; [discriminate |]. destruct (p c); [| discriminate].
    intros H. apply Hk in H. destruct H as (u & -> & Hu).
    exists (String c u). simpl. split; [reflexivity | lia].
  - intros H. apply (IH1 _ _ (IH2 k n Hk)) in H.
    destruct H as (u & -> & Hu). exists u. split; [reflexivity | lia].
  - destruct (rmatch r s k) as [rest'|] eqn:E.
    + intros [= <-]. apply (IH k n Hk) in E.
      destruct E as (u & -> & Hu). exists u. split; [reflexivity | lia].
    + intros H. apply Hk in H. destruct H as (u & -> & Hu).
      exists u. split; [reflexivity | lia].
  - destruct s as [|c s]; [discriminate |]. destruct (p c); [| discriminate].
    intros H. apply (star_leaves p k n Hk) in H. destruct H as (u & -> & Hu).
    exists (String c u). simpl. split; [reflexivity | lia].
  - intros H. apply (star_leaves p k n Hk) in H. destruct H as (u & -> & Hu).
    exists u. split; [reflexivity | lia].
Qed.

Lemma match_alternatives_In spec s name v rest :
  match_alternatives spec s = Some (name, v, rest) ->
  exists r, In (name, r) spec
            /\ rmatch r s Some = Some rest /\ v = matched s rest.
Proof.
  induction spec as [|[n r] spec IH]; simpl; [discriminate |].
  destruct (rmatch r s Some) as [rest'|] eqn:E.
  - intros [= <- <- <-]. exists r. auto.
  - intros H. destruct (IH H) as (r' & Hin & Hr). exists r'. auto.
Qed.

Lemma token_specification_min_len :
  Forall (fun nr => 1 <= min_len (snd nr)) token_specification.
Proof. repeat constructor. Qed.

(** Whatever [token_pattern] matches is a non-empty prefix of the input,
    and the rest is what follows it. *)
Lemma token_pattern_prefix s name v rest :
  token_pattern s = Some (name, v, rest) -> s = v ++ rest /\ v <> "".
Proof.
  intros H. apply match_alternatives_In in H.
  destruct H as (r & Hin & Hr & ->).
  assert (Hmin : 1 <= min_len r).
  { pose proof token_specification_min_len as HF.
    rewrite Forall_forall in HF. exact (HF _ Hin). }
  assert (Hsome : leaves Some 0).
  { intros s' r' [= ->]. exists "". split; [reflexivity | simpl; lia]. }
  apply (rmatch_leaves r Some 0 Hsome) in Hr.
  destruct Hr as (u & -> & Hu). rewrite matched_app.
  split; [reflexivity |]. intros ->. simpl in Hu. lia.
Qed.

(** [finditer] resumes the scan right after each match. *)
Lemma finditer_from_resume s name v rest :
  token_pattern s = Some (name, v, rest) ->
  finditer_from s 0 = groupdict name v :: finditer_from rest 0.
Proof.
  intros H. destruct (token_pattern_prefix _ _ _ _ H) as [-> Hv].
  now apply finditer_from_match.
Qed.

Ltac next_alternative H :=
  match type of H with
  | match rmatch ?r ?s Some with _ => _ end = _ =>
      let E := fresh "E" in
      destruct (rmatch r s Some) eqn:E;
      [cbv beta iota in H; discriminate H |]; clear E
  end.

Lemma token_pattern_string_literal s v rest :
  token_pattern s = Some ("STRING_LITERAL", v, rest) ->
  exists body, v = q body /\ all_chars not_quote body = true /\ s = v ++ rest.
Proof.
  intros H.
  cbv beta iota delta [token_pattern token_specification match_alternatives] in H.
  do 13 next_alternative H.
  match type of H with
  | match rmatch ?r ?s Some with _ => _ end = _ =>
      destruct (rmatch r s Some) as [rest0|] eqn:E
  end.
  2:{ repeat next_alternative H. discriminate H. }
  cbv beta iota in H. injection H as <- <-.
  destruct s as [|c s]; cbn [rmatch] in E; [discriminate E |].
  destruct (Ascii.eqb dquote c) eqn:Hc; [| discriminate E].
  apply Ascii.eqb_eq in Hc. subst c.
  apply star_inv in E. destruct E as (a & b & -> & Ha & Hb).
  destruct b as [|c b]; [discriminate Hb |].
  destruct (Ascii.eqb dquote c) eqn:Hc; [| discriminate Hb].
  apply Ascii.eqb_eq in Hc. subst c. injection Hb as <-.
  exists a.
  assert (Hs : String dquote (a ++ String dquote b) = q a ++ b).
  { unfold q. simpl. now rewrite append_assoc. }
  rewrite Hs, matched_app. auto.
Qed.

Lemma take_all (s : string) : take (String.length s) s = s.
Proof. induction s as [|c s IH]; simpl; [reflexivity | now rewrite IH]. Qed.

Lemma matched_nil (s : string) : matched s "" = s.
Proof. unfold matched. simpl. rewrite Nat.sub_0_r. apply take_all. Qed.

Lemma token_pattern_space (c : ascii) (s : string) :
  is_space c = true ->
  all_chars is_space s = true ->
  token_pattern (String c s) = Some ("WHITESPACE", String c s, "").
Proof.
  intros Hc Hs. rewrite <- (matched_nil (String c s)) at 2.
  unfold token_pattern.
  destruct c as [[] [] [] [] [] [] [] []]; try discriminate Hc;
    cbn;
    rewrite (star_all is_space s Hs); reflexivity.
Qed.

Lemma finditer_from_covered (s : string) :
  finditer_from s (String.length s) = [].
Proof.
  rewrite <- (append_nil_r s) at 1. now rewrite finditer_from_skip.
Qed.

(** A source made of whitespace only yields no token. *)
Lemma lexer_whitespace_only (s : string) :
  all_chars is_space s = true -> lexer s = [].
Proof.
  destruct s as [|c s]; [reflexivity |].
  intros H. simpl in H. apply andb_prop in H. destruct H as [Hc Hs].
  unfold lexer, finditer.
  rewrite finditer_from_cons, (token_pattern_space c s Hc Hs).
  replace (String.length (String c s) - 1) with (String.length s)
    by (simpl; lia).
  rewrite finditer_from_covered, lexer_matches_cons.
  rewrite lexer_groups_groupdict by (cbv; tauto).
  unfold emitted. rewrite andb_false_r. reflexivity.
Qed.

(** The order of the groups: the eight keywords, then the two
    punctuation tokens, then the identifier and the rest. *)
Lemma keywords_before_ID :
  group_names
  = (keywords ++ ["ASSIGN"; "COMMA"; "ID"; "FLOAT"; "INT"; "STRING_LITERAL";
                  "OPERATOR"; "WHITESPACE"])%list
  /\ keywords
     = ["BEGIN"; "END"; "PRINT"; "FOR"; "TO"; "INTEGER"; "REAL"; "STRING"]
  /\ In ("ID", ID_pattern) token_specification.
Proof.
  split; [reflexivity |]. split; [reflexivity |].
  unfold token_specification. do 10 right. left. reflexivity.
Qed.

Lemma ID_pattern_keyword (k rest : string) :
  In k keywords -> rmatch ID_pattern (k ++ rest) Some <> None.
Proof.
  intros Hk. cbv [keywords token_specification firstn map fst In] in Hk.
  repeat (destruct Hk as [<- | Hk]; [apply star_total |]).
  contradiction.
Qed.

Lemma keyword_nonempty (k : string) : In k keywords -> k <> "".
Proof.
  intros Hk. cbv [keywords token_specification firstn map fst In] in Hk.
  repeat (destruct Hk as [<- | Hk]; [discriminate |]).
  contradiction.
Qed.

Lemma emitted_keyword (k : string) (line col : nat) :
  In k keywords -> emitted k k line col = [mkToken k k line col].
Proof.
  intros Hk. cbv [keywords token_specification firstn map fst In] in Hk.
  repeat (destruct Hk as [<- | Hk]; [reflexivity |]).
  contradiction.
Qed.

Lemma keywords_group_names (k : string) : In k keywords -> In k group_names.
Proof.
  intros Hk. destruct keywords_before_ID as [-> _].
  apply in_or_app. now left.
Qed.

(** C7.  Wherever the scan tries a match and the text ahead starts with a
    keyword, the identifier pattern matches there as well, and the match
    of [token_pattern] is the keyword group with exactly the keyword as
    its text: the lexer yields the keyword token and goes on scanning
    right after the keyword. *)
Theorem keyword_wins_over_identifier (k rest : string) (line col : nat) :
  In k keywords ->
  rmatch ID_pattern (k ++ rest) Some <> None
  /\ token_pattern (k ++ rest) = Some (k, k, rest)
  /\ lexer_matches (finditer_from (k ++ rest) 0) line col
     = mkToken k k line col :: lexer_matches (finditer_from rest 0) (line + 1) 1.
Proof.
  intros Hk. split; [now apply ID_pattern_keyword |].
  split; [now apply token_pattern_keyword |].
  rewrite (finditer_from_match k k rest
             (token_pattern_keyword k rest Hk) (keyword_nonempty k Hk)).
  rewrite lexer_matches_cons.
  rewrite (lexer_groups_groupdict k k line col (keywords_group_names k Hk)).
  now rewrite (emitted_keyword k line col Hk).
Qed.

Lemma keyword_wins_over_identifier_witness :
  rmatch ID_pattern ("END" ++ "ING") Some <> None
  /\ token_pattern ("END" ++ "ING") = Some ("END", "END", "ING")
  /\ lexer_matches (finditer_from ("END" ++ "ING") 0) 1 1
     = mkToken "END" "END" 1 1 :: lexer_matches (finditer_from "ING" 0) (1 + 1) 1.
Proof.
  apply (keyword_wins_over_identifier "END" "ING" 1 1).
  cbv. tauto.
Defined.

(** The whole lexer on a keyword followed by more identifier characters. *)
Example lexer_BEGINNER :
  lexer "BEGINNER" = [mkToken "BEGIN" "BEGIN" 1 1; mkToken "ID" "NER" 2 1].
Proof. reflexivity. Qed.

(** Every token the lexer yields has column 1: the column is reset after
    each match and a match yields at most one token. *)
Lemma lexer_column_one (s : string) (t : Token) :
  In t (lexer s) -> column t = 1.
Proof. intros H. now apply lexer_In in H. Qed.

(** C8.  On the one-line source [A B] the second identifier starts at
    line 1, column 3; the lexer records line 3 (one more per match, the
    blank between the names included) and column 1. *)
Theorem lexer_position_A_B :
  lexer "A B" = [mkToken "ID" "A" 1 1; mkToken "ID" "B" 3 1].
Proof. reflexivity. Qed.

(** C5 (as stated) fails: the token of the literal in [PRINT "HI"] is the
    four characters quote, H, I, quote, and it is this token that the
    parser stores under the [Value] node. *)
Lemma string_literal_HI_keeps_quotes :
  let src := "BEGIN PRINT " ++ q "HI" ++ " END" in
  let tok := mkToken "STRING_LITERAL" (q "HI") 5 1 in
  In tok (lexer src)
  /\ (exists self,
        parse_source src
        = Parser.Return
            (Node "Program"
               [Node "Statements"
                  [Node "PrintStatement"
                     [Node "StringLiteral" [Node "Value" [Tok tok] None] None]
                     None]
                  None]
               None) self)
  /\ String.length (value tok) = 4
  /\ value tok <> "HI".
Proof.
  cbv zeta. split; [vm_compute; tauto |].
  split; [eexists; vm_compute; reflexivity |].
  split; [reflexivity | discriminate].
Qed.

(** C5 (amended).  The text of every [STRING_LITERAL] token is the body
    of the literal between its two double quotes, quotes included; the
    body itself holds no double quote. *)
Theorem string_literal_text_includes_quotes (s : string) (t : Token) :
  In t (lexer s) ->
  type t = "STRING_LITERAL" ->
  exists body, value t = q body /\ all_chars not_quote body = true.
Proof.
  intros Hin Hty. apply lexer_In in Hin.
  destruct Hin as [(s' & rest & Hm) _]. rewrite Hty in Hm.
  apply token_pattern_string_literal in Hm.
  destruct Hm as (body & Hv & Hb & _). now exists body.
Qed.

Lemma string_literal_text_includes_quotes_witness :
  exists body,
    value (mkToken "STRING_LITERAL" (q "HI") 5 1) = q body
    /\ all_chars not_quote body = true.
Proof.
  apply (string_literal_text_includes_quotes
           ("BEGIN PRINT " ++ q "HI" ++ " END")
           (mkToken "STRING_LITERAL" (q "HI") 5 1)).
  - vm_compute. tauto.
  - reflexivity.
Defined.

(** C10.  When the lexer yields no token, as it does on an empty or
    whitespace-only source, the first [next(self.lexer)] of [parse]
    raises [StopIteration], whatever the fuel: nothing is returned and
    no [SyntaxError] is raised. *)
Theorem parse_no_token_raises_StopIteration (input_code : string) (fuel : nat) :
  lexer input_code = [] \/ all_chars is_space input_code = true ->
  lexer input_code = []
  /\ parse_source input_code = Parser.Raise StopIteration
  /\ Parser.parse fuel (Parser.init (lexer input_code)) = Parser.Raise StopIteration.
Proof.
  intros H.
  assert (E : lexer input_code = []).
  { destruct H as [H | H]; [exact H | now apply lexer_whitespace_only]. }
  unfold parse_source, parse_tokens. rewrite E. repeat split.
Qed.

Lemma parse_no_token_raises_StopIteration_witness :
  lexer ("  " ++ newline ++ "  ") = []
  /\ parse_source ("  " ++ newline ++ "  ") = Parser.Raise StopIteration
  /\ Parser.parse 7 (Parser.init (lexer ("  " ++ newline ++ "  ")))
     = Parser.Raise StopIteration.
Proof.
  apply (parse_no_token_raises_StopIteration ("  " ++ newline ++ "  ") 7).
  right. reflexivity.
Defined.

Example parse_empty_source : parse_source "" = Parser.Raise StopIteration.
Proof. reflexivity. Qed.

(* ===================================================================== *)
(** ** Properties of the parser *)

Lemma bind_Return {A B} (c : Parser.M A) (k : A -> Parser.M B) self b self2 :
  Parser.bind c k self = Parser.Return b self2 ->
  exists a self1, c self = Parser.Return a self1 /\ k a self1 = Parser.Return b self2.
Proof.
  unfold Parser.bind. destruct (c self) as [a self1| |]; try discriminate.
  intros H. now exists a, self1.
Qed.

Lemma bind_step {A B} (c : Parser.M A) (k : A -> Parser.M B) self a self1 :
  c self = Parser.Return a self1 -> Parser.bind c k self = k a self1.
Proof. intros H. unfold Parser.bind. now rewrite H. Qed.

Lemma add_child_Node ty children v child :
  add_child (Node ty children v) child = Node ty (append children child) v.
Proof. reflexivity. Qed.

Lemma statement_list_while_Statements (fuel : nat) :
  forall children self node self',
    Parser.statement_list_while fuel (Node "Statements" children None) self
    = Parser.Return node self' ->
    exists children', node = Node "Statements" children' None.
Proof.
  induction fuel as [|fuel IH]; intros children self node self'; [discriminate |].
  cbn [Parser.statement_list_while]. unfold Parser.bind at 1, Parser.get.
  destruct (negb (Parser.panic_mode self)
            && Parser.at_type self Parser.statement_start).
  - intros H. apply bind_Return in H. destruct H as (st & self1 & _ & H).
    rewrite add_child_Node in H. now apply IH in H.
  - intros [= <- _]. now exists children.
Qed.

Lemma program_Program (fuel : nat) (self : Parser.t) node self' :
  Parser.program fuel self = Parser.Return node self' ->
  exists children, node = Node "Program" [Node "Statements" children None] None.
Proof.
  unfold Parser.program. intros H.
  apply bind_Return in H. destruct H as (? & self1 & _ & H).
  apply bind_Return in H. destruct H as (stmts & self2 & Hs & H).
  apply statement_list_while_Statements in Hs. destruct Hs as (children & ->).
  apply bind_Return in H. destruct H as (? & self3 & _ & H).
  apply bind_Return in H. destruct H as (? & self4 & _ & H).
  apply bind_Return in H. destruct H as (? & self5 & _ & H).
  apply bind_Return in H. destruct H as (? & self6 & _ & H).
  apply bind_Return in H. destruct H as (? & self7 & _ & H).
  injection H as <- _. now exists children.
Qed.

(** C6.  Whenever [parse] returns, what it returns is a [Program] node
    with exactly one child, a [Statements] node. *)
Theorem parse_returns_Program_of_Statements
        (fuel : nat) (self : Parser.t) (node : Obj) (self' : Parser.t) :
  Parser.parse fuel self = Parser.Return node self' ->
  exists children,
    node = Node "Program" [Node "Statements" children None] None.
Proof.
  unfold Parser.parse. destruct (Parser.lexer self) as [|tok rest]; [discriminate |].
  apply program_Program.
Qed.

Lemma parse_returns_Program_of_Statements_witness :
  exists children,
    Node "Program" [Node "Statements" [] None] None
    = Node "Program" [Node "Statements" children None] None.
Proof.
  apply (parse_returns_Program_of_Statements 3
           (Parser.init (lexer "BEGIN END"))
           (Node "Program" [Node "Statements" [] None] None)
           (Parser.mk [] None false ["Consuming: BEGIN"; "Consuming: END"])).
  reflexivity.
Defined.

(** *** [consume] in panic mode *)

(** The loud skipping loop stops at the first token it wants, or runs
    the input out. *)
Lemma skip_loop_spec (wanted : string -> bool) (lex : list Token) :
  forall tok out,
    (exists skipped found rest,
        tok :: lex = (skipped ++ found :: rest)%list
        /\ Forall (fun t => wanted (type t) = false) skipped
        /\ wanted (type found) = true
        /\ Parser.skip_loop wanted true (Some tok) lex out
           = (Some found, rest, (out ++ map skipping skipped)%list))
    \/ (Forall (fun t => wanted (type t) = false) (tok :: lex)
        /\ Parser.skip_loop wanted true (Some tok) lex out
           = (None, [], (out ++ map skipping (tok :: lex))%list)).
Proof.
  induction lex as [|tok' lex IH]; intros tok out.
  - simpl. destruct (wanted (type tok)) eqn:Hw.
    + left. exists [], tok, []. simpl. rewrite app_nil_r. auto.
    + right. split; [now repeat constructor |]. reflexivity.
  - cbn [Parser.skip_loop]. destruct (wanted (type tok)) eqn:Hw.
    + left. exists [], tok, (tok' :: lex). simpl. rewrite app_nil_r. auto.
    + destruct (IH tok' (append out ("Skipping: " ++ type tok)))
        as [(skipped & found & rest & Heq & Hsk & Hf & Hr) | (Hall & Hr)].
      * left. exists (tok :: skipped), found, rest.
        rewrite Heq. repeat split; auto.
        rewrite Hr. unfold append. now rewrite <- app_assoc.
      * right. split; [now constructor |].
        rewrite Hr. unfold append. now rewrite <- app_assoc.
Qed.

Lemma advance_generator_invariant self u self' :
  Parser.advance self = Parser.Return u self' -> generator_invariant self'.
Proof.
  unfold Parser.advance, generator_invariant.
  destruct (Parser.lexer self); intros [= _ <-]; simpl; congruence.
Qed.

(** [parse] starts on a state with the invariant and [consume] keeps it:
    every call of [consume] in a parse is made on such a state. *)
Lemma consume_generator_invariant expected self u self' :
  generator_invariant self ->
  Parser.consume expected self = Parser.Return u self' ->
  generator_invariant self'.
Proof.
  intros Hwf H. unfold Parser.consume in H.
  apply bind_Return in H. destruct H as (self0 & self1 & [= <- <-] & H).
  destruct (Parser.panic_mode self).
  - apply bind_Return in H. destruct H as (? & self2 & _ & H).
    apply bind_Return in H. destruct H as (self3 & self4 & [= <- <-] & H).
    destruct (Parser.current_token self2) as [tok|];
      [| now apply advance_generator_invariant in H].
    destruct (String.eqb (type tok) expected);
      [| now apply advance_generator_invariant in H].
    apply bind_Return in H. destruct H as (? & self5 & _ & H).
    now apply advance_generator_invariant in H.
  - destruct (Parser.current_token self) as [tok|] eqn:E.
    + destruct (String.eqb (type tok) expected).
      * apply bind_Return in H. destruct H as (? & self5 & _ & H).
        now apply advance_generator_invariant in H.
      * apply bind_Return in H. destruct H as (? & self5 & _ & H).
        apply bind_Return in H. destruct H as (? & self6 & _ & H).
        now apply advance_generator_invariant in H.
    + destruct (String.eqb expected "END"); [| discriminate H].
      now injection H as _ <-.
Qed.

(** C3 (as stated) fails: with one identifier left and [END] expected,
    [consume] in panic mode skips it, finds the input exhausted and
    returns with the mode still [Panic].  The parse of an unclosed [FOR]
    reaches that call and ends in panic mode. *)
Lemma consume_exhausted_stays_in_panic :
  Parser.consume "END" (Parser.mk [] (Some (mkToken "ID" "X" 1 1)) true [])
  = Parser.Return tt (Parser.mk [] None true ["Skipping: ID"])
  /\ (exists node self,
        parse_source "BEGIN FOR I := 1 TO 5 PRINT 3" = Parser.Return node self
        /\ Parser.current_token self = None
        /\ Parser.panic_mode self = true).
Proof.
  split; [reflexivity |].
  eexists. eexists. split; [vm_compute; reflexivity |]. split; reflexivity.
Qed.

(** C3 (amended).  Called in panic mode, [consume expected] skips the
    unread tokens up to the first one of type [expected]; it consumes
    that one and leaves panic mode.  If there is none, the input is
    exhausted and the parser stays in panic mode. *)
Theorem consume_in_panic_mode (expected : string) (self : Parser.t) :
  Parser.panic_mode self = true ->
  generator_invariant self ->
  (exists skipped found rest,
      pending self = (skipped ++ found :: rest)%list
      /\ Forall (fun t => type t <> expected) skipped
      /\ type found = expected
      /\ Parser.consume expected self
         = Parser.Return tt
             (reading rest false
                (Parser.stdout self ++ map skipping skipped)%list))
  \/ (Forall (fun t => type t <> expected) (pending self)
      /\ Parser.consume expected self
         = Parser.Return tt
             (Parser.mk [] None true
                (Parser.stdout self ++ map skipping (pending self))%list)).
Proof.
  unfold generator_invariant.
  destruct self as [lex [tok|] panic out]; simpl; intros -> Hwf.
  - unfold pending. cbn [Parser.current_token Parser.lexer].
    destruct (skip_loop_spec (is_type expected) lex tok out)
      as [(skipped & found & rest & Heq & Hsk & Hf & Hr) | (Hall & Hr)].
    + left. exists skipped, found, rest.
      unfold is_type in Hf. apply String.eqb_eq in Hf.
      repeat split; auto.
      * eapply Forall_impl; [| exact Hsk]. cbv beta. intros t Ht.
        unfold is_type in Ht. now apply String.eqb_neq in Ht.
      * unfold Parser.consume, Parser.bind, Parser.get, Parser.skip_until.
        cbn [Parser.panic_mode Parser.current_token Parser.lexer Parser.stdout].
        unfold is_type in Hr. rewrite Hr.
        cbn [Parser.panic_mode Parser.current_token Parser.lexer Parser.stdout].
        rewrite Hf, String.eqb_refl. destruct rest; reflexivity.
    + right. split.
      * eapply Forall_impl; [| exact Hall]. cbv beta. intros t Ht.
        unfold is_type in Ht. now apply String.eqb_neq in Ht.
      * unfold Parser.consume, Parser.bind, Parser.get, Parser.skip_until.
        cbn [Parser.panic_mode Parser.current_token Parser.lexer Parser.stdout].
        unfold is_type in Hr. rewrite Hr. reflexivity.
  - right. specialize (Hwf eq_refl). subst lex. unfold pending. simpl.
    split; [constructor |]. now rewrite app_nil_r.
Qed.

Lemma consume_in_panic_mode_witness :
  let self :=
    Parser.mk [mkToken "INT" "3" 2 1; mkToken "END" "END" 3 1; mkToken "ID" "Y" 4 1]
              (Some (mkToken "ID" "X" 1 1)) true [] in
  (exists skipped found rest,
      pending self = (skipped ++ found :: rest)%list
      /\ Forall (fun t => type t <> "END") skipped
      /\ type found = "END"
      /\ Parser.consume "END" self
         = Parser.Return tt
             (reading rest false
                (Parser.stdout self ++ map skipping skipped)%list))
  \/ (Forall (fun t => type t <> "END") (pending self)
      /\ Parser.consume "END" self
         = Parser.Return tt
             (Parser.mk [] None true
                (Parser.stdout self ++ map skipping (pending self))%list)).
Proof.
  cbv zeta.
  apply (consume_in_panic_mode "END"
           (Parser.mk [mkToken "INT" "3" 2 1; mkToken "END" "END" 3 1;
                       mkToken "ID" "Y" 4 1]
                      (Some (mkToken "ID" "X" 1 1)) true [])).
  - reflexivity.
  - discriminate.
Defined.

(** The same call on a concrete state: two tokens skipped, [END]
    consumed, the token after it current, back in normal mode. *)
Example consume_in_panic_mode_finds_END :
  Parser.consume "END"
    (Parser.mk [mkToken "INT" "3" 2 1; mkToken "END" "END" 3 1; mkToken "ID" "Y" 4 1]
               (Some (mkToken "ID" "X" 1 1)) true [])
  = Parser.Return tt
      (Parser.mk [] (Some (mkToken "ID" "Y" 4 1)) false
                 ["Skipping: ID"; "Skipping: INT"]).
Proof. reflexivity. Qed.

(** *** Tokens after the top-level [END] *)

Lemma skip_loop_wanted wanted loud tok lex out :
  wanted (type tok) = true ->
  Parser.skip_loop wanted loud (Some tok) lex out = (Some tok, lex, out).
Proof. intros H. destruct lex; simpl; now rewrite H. Qed.

Lemma advance_reading lex cur panic out :
  Parser.advance (Parser.mk lex cur panic out)
  = Parser.Return tt (reading lex panic out).
Proof. destruct lex; reflexivity. Qed.

Lemma consume_current (expected : string) (tok : Token) lex panic out :
  type tok = expected ->
  Parser.consume expected (Parser.mk lex (Some tok) panic out)
  = Parser.Return tt
      (reading lex false
         (List.app out (if panic then [] else ["Consuming: " ++ type tok]))).
Proof.
  intros <-.
  destruct panic;
    unfold Parser.consume, Parser.bind, Parser.get, Parser.skip_until;
    cbn [Parser.panic_mode Parser.current_token Parser.lexer Parser.stdout].
  - rewrite (skip_loop_wanted (fun ty => String.eqb ty (type tok)))
      by apply String.eqb_refl.
    cbn [Parser.panic_mode Parser.current_token Parser.lexer Parser.stdout].
    rewrite String.eqb_refl. unfold Parser.set_panic_mode.
    cbn [Parser.panic_mode Parser.current_token Parser.lexer Parser.stdout].
    rewrite advance_reading. now rewrite app_nil_r.
  - rewrite String.eqb_refl. unfold Parser.print.
    cbn [Parser.panic_mode Parser.current_token Parser.lexer Parser.stdout].
    now rewrite advance_reading.
Qed.

(** C4 (as stated) fails: with a statement after the top-level [END],
    [parse] returns the tree; the tokens after [END] are left unread
    (the first as the current token) and nothing is printed about them. *)
Lemma parse_returns_despite_trailing_tokens :
  parse_source ("BEGIN END PRINT " ++ q "X")
  = Parser.Return
      (Node "Program" [Node "Statements" [] None] None)
      (Parser.mk [mkToken "STRING_LITERAL" (q "X") 7 1]
                 (Some (mkToken "PRINT" "PRINT" 5 1)) false
                 ["Consuming: BEGIN"; "Consuming: END"]).
Proof. reflexivity. Qed.

(** When the statement list of the program stops in front of an [END],
    [program] consumes it and returns, whatever the generator still holds. *)
Lemma program_stops_after_END
      (fuel : nat) (self : Parser.t) (stmts : Obj) (self1 : Parser.t)
      (end_tok : Token) :
  (Parser.consume "BEGIN" ;; Parser.statement_list fuel) self
  = Parser.Return stmts self1 ->
  Parser.current_token self1 = Some end_tok ->
  type end_tok = "END" ->
  Parser.program fuel self
  = Parser.Return
      (Node "Program" [stmts] None)
      (reading (Parser.lexer self1) false
         (Parser.stdout self1
          ++ if Parser.panic_mode self1 then [] else ["Consuming: END"])%list).
Proof.
  intros H Hcur Hty. unfold Parser.program.
  unfold Parser.bind at 1 in H. unfold Parser.bind at 1.
  destruct (Parser.consume "BEGIN" self) as [u self0| |]; try discriminate H.
  unfold Parser.bind at 1. rewrite H.
  destruct self1 as [lex cur panic out]. simpl in Hcur. subst cur.
  unfold Parser.bind, Parser.skip_until, Parser.get, Parser.at_type.
  cbn [Parser.panic_mode Parser.current_token Parser.lexer Parser.stdout].
  rewrite (skip_loop_wanted (fun ty => type_in ty ["END"; "BEGIN"]))
    by (now rewrite Hty).
  cbn [Parser.panic_mode Parser.current_token Parser.lexer Parser.stdout].
  rewrite Hty. cbn [type_in existsb String.eqb Ascii.eqb Bool.eqb orb].
  unfold Parser.ret at 1.
  cbn [Parser.panic_mode Parser.current_token Parser.lexer Parser.stdout].
  rewrite Hty. cbn [String.eqb Ascii.eqb Bool.eqb orb].
  rewrite (consume_current "END" end_tok lex panic out Hty).
  rewrite Hty. reflexivity.
Qed.

(** The empty program followed by anything at all. *)
Example parse_BEGIN_END_then_anything (b e : Token) (trailing : list Token) :
  type b = "BEGIN" ->
  type e = "END" ->
  parse_tokens (b :: e :: trailing)
  = Parser.Return
      (Node "Program" [Node "Statements" [] None] None)
      (reading trailing false ["Consuming: BEGIN"; "Consuming: END"]).
Proof.
  intros Hb He. unfold parse_tokens, Parser.parse, Parser.init.
  cbn [Parser.lexer Parser.panic_mode Parser.stdout length].
  rewrite (program_stops_after_END _ _ (Node "Statements" [] None)
             (Parser.mk trailing (Some e) false ["Consuming: BEGIN"]) e).
  - reflexivity.
  - rewrite (bind_step _ _ _ tt (reading (e :: trailing) false ["Consuming: BEGIN"])).
    + cbn [reading Parser.statement_list Parser.statement_list_while].
      unfold Parser.bind, Parser.get, Parser.at_type.
      cbn [Parser.panic_mode Parser.current_token]. rewrite He. reflexivity.
    + rewrite (consume_current "BEGIN" b (e :: trailing) false [] Hb).
      now rewrite Hb.
  - reflexivity.
  - exact He.
Qed.

(** *** Declarations *)

Lemma consume_step (expected : string) (tok : Token) lex out :
  type tok = expected ->
  Parser.consume expected (Parser.mk lex (Some tok) false out)
  = Parser.Return tt (reading lex false (append out ("Consuming: " ++ expected))).
Proof.
  intros H. rewrite (consume_current expected) by exact H. now rewrite H.
Qed.

Lemma var_declaration_while_spec (var_type : string) (next : Token)
      (rest : list Token) (more : list (Token * Token)) :
  Forall well_typed_pair more ->
  type next <> "COMMA" ->
  forall fuel var_nodes out,
    length more < fuel ->
    Parser.var_declaration_while fuel var_type var_nodes
      (reading (comma_names more ++ next :: rest)%list false out)
    = Parser.Return
        (var_nodes ++ map (declared var_type) (map snd more))%list
        (reading (next :: rest) false
           (out ++ flat_map (fun _ => ["Consuming: COMMA"; "Consuming: ID"]) more)%list).
Proof.
  intros Hmore Hnext. induction Hmore as [|[comma name] more [Hc Hn] Hmore IH];
    intros fuel var_nodes out Hfuel.
  - destruct fuel as [|fuel]; [inversion Hfuel |].
    cbn [comma_names flat_map List.app map Parser.var_declaration_while].
    unfold Parser.bind, Parser.get. cbn [reading Parser.current_token].
    apply String.eqb_neq in Hnext. rewrite Hnext.
    unfold Parser.ret. now rewrite !app_nil_r.
  - destruct fuel as [|fuel]; [inversion Hfuel |].
    simpl in Hfuel, Hc, Hn.
    cbn [comma_names flat_map List.app map fst snd Parser.var_declaration_while].
    fold (comma_names more).
    unfold Parser.bind at 1, Parser.get at 1.
    cbn [reading Parser.current_token]. rewrite Hc. cbn [String.eqb Ascii.eqb Bool.eqb].
    rewrite (bind_step _ _ _ _ _ (consume_step "COMMA" comma _ out Hc)).
    unfold Parser.bind at 1, Parser.get at 1. cbn [reading Parser.current_token].
    rewrite (bind_step _ _ _ _ _ (consume_step "ID" name _ _ Hn)).
    rewrite IH by lia. unfold append, declared.
    now rewrite <- !app_assoc.
Qed.

(** The production itself.  On a type keyword, a name and any number of
    [, name] pairs, followed by a token that is not a comma,
    [var_declaration] consumes
    exactly the declaration and returns one [VarDeclaration] node whose
    children are one leaf per name, in order: each leaf has the type
    keyword as its kind, no children and the name as its value. *)
Theorem var_declaration_one_leaf_per_name
        (fuel : nat) (var_type name : Token) (more : list (Token * Token))
        (next : Token) (rest : list Token) (out : list string) :
  type name = "ID" ->
  Forall well_typed_pair more ->
  type next <> "COMMA" ->
  length more < fuel ->
  Parser.var_declaration fuel
    (reading (var_type :: name :: comma_names more ++ next :: rest)%list false out)
  = Parser.Return
      (Node "VarDeclaration"
            (map (declared (type var_type)) (name :: map snd more)) None)
      (reading (next :: rest) false
         (List.app out (declaration_log var_type more))).
Proof.
  intros Hname Hmore Hnext Hfuel.
  unfold Parser.var_declaration, declaration_log.
  unfold Parser.bind at 1, Parser.get at 1. cbn [reading Parser.current_token].
  rewrite (bind_step _ _ _ _ _ (consume_step (type var_type) var_type _ out eq_refl)).
  unfold Parser.bind at 1, Parser.get at 1. cbn [reading Parser.current_token].
  rewrite (bind_step _ _ _ _ _ (consume_step "ID" name _ _ Hname)).
  rewrite (bind_step _ _ _ _ _
             (var_declaration_while_spec (type var_type) next rest more
                Hmore Hnext fuel _ _ Hfuel)).
  unfold Parser.ret, append. cbn [map List.app].
  now rewrite <- !app_assoc.
Qed.

Lemma var_declaration_one_leaf_per_name_witness :
  Parser.var_declaration 2
    (reading (mkToken "INTEGER" "INTEGER" 3 1 :: mkToken "ID" "A" 5 1
              :: comma_names [(mkToken "COMMA" "," 6 1, mkToken "ID" "B" 8 1)]
              ++ mkToken "END" "END" 10 1 :: [])%list false ["Consuming: BEGIN"])
  = Parser.Return
      (Node "VarDeclaration"
            (map (declared (type (mkToken "INTEGER" "INTEGER" 3 1)))
                 (mkToken "ID" "A" 5 1
                  :: map snd [(mkToken "COMMA" "," 6 1, mkToken "ID" "B" 8 1)]))
            None)
      (reading (mkToken "END" "END" 10 1 :: []) false
         (List.app ["Consuming: BEGIN"]
            (declaration_log (mkToken "INTEGER" "INTEGER" 3 1)
               [(mkToken "COMMA" "," 6 1, mkToken "ID" "B" 8 1)]))).
Proof.
  apply (var_declaration_one_leaf_per_name 2
           (mkToken "INTEGER" "INTEGER" 3 1) (mkToken "ID" "A" 5 1)
           [(mkToken "COMMA" "," 6 1, mkToken "ID" "B" 8 1)]
           (mkToken "END" "END" 10 1) [] ["Consuming: BEGIN"]).
  - reflexivity.
  - repeat constructor.
  - discriminate.
  - simpl. lia.
Defined.

(** The declaration inside a whole program: the statement wraps the node
    of [var_declaration] in a node of its own. *)
Example parse_INTEGER_A_B :
  parse_source "BEGIN INTEGER A, B END"
  = Parser.Return
      (Node "Program"
         [Node "Statements"
            [Node "VarDeclaration"
               [Node "VarDeclaration"
                  [Node "INTEGER" [] (Some "A"); Node "INTEGER" [] (Some "B")]
                  None]
               None]
            None]
         None)
      (Parser.mk [] None false
         ["Consuming: BEGIN"; "Consuming: INTEGER"; "Consuming: ID";
          "Consuming: COMMA"; "Consuming: ID"; "Consuming: END"]).
Proof. reflexivity. Qed.

(** *** Expressions *)

(** The type of a token of the lexer is the name of a group, and no
    group is named after an arithmetic symbol. *)
Lemma lexer_type (s : string) (t : Token) :
  In t (lexer s) -> In (type t) group_names.
Proof.
  intros H. apply lexer_In in H. destruct H as [(s' & rest & H) _].
  now apply token_pattern_name in H.
Qed.

Lemma group_names_not_arithmetic (name : string) :
  In name group_names -> type_in name arithmetic_symbols = false.
Proof.
  intros H. cbv [group_names token_specification map fst In] in H.
  repeat (destruct H as [<- | H]; [reflexivity |]).
  contradiction.
Qed.

Lemma term_Return (self : Parser.t) (node : Obj) (self' : Parser.t) :
  Parser.term self = Parser.Return node self' ->
  exists tok out,
    Parser.current_token self = Some tok
    /\ node = Node "Value" [Tok tok] None
    /\ self' = reading (Parser.lexer self) false out.
Proof.
  destruct self as [lex [tok|] panic out];
    unfold Parser.term, Parser.bind at 1, Parser.get;
    cbn [Parser.current_token Parser.lexer]; [| discriminate].
  destruct (type_in (type tok) Parser.term_start); [| discriminate].
  rewrite (bind_step _ _ _ _ _ (consume_current (type tok) tok lex panic out eq_refl)).
  intros [= <- <-]. eauto.
Qed.

(** On a stream whose tokens are never typed by an arithmetic symbol,
    the loop of [expression] is not entered: [expression] is [term]. *)
Lemma expression_is_term (self : Parser.t) :
  Forall (fun t => type_in (type t) arithmetic_symbols = false) (Parser.lexer self) ->
  Parser.expression self = Parser.term self.
Proof.
  intros Hall. unfold Parser.expression. unfold Parser.bind at 1.
  destruct (Parser.term self) as [node self'| |] eqn:E; try reflexivity.
  apply term_Return in E. destruct E as (tok & out & _ & _ & ->).
  unfold Parser.bind, Parser.get.
  destruct (Parser.lexer self) as [|operator lex]; [reflexivity |].
  cbn [reading Parser.current_token Parser.panic_mode].
  inversion Hall as [|? ? Hop _]; subst.
  fold arithmetic_symbols. rewrite Hop. reflexivity.
Qed.

Lemma lexer_not_arithmetic (s : string) :
  Forall (fun t => type_in (type t) arithmetic_symbols = false) (lexer s).
Proof.
  apply Forall_forall. intros t Ht.
  apply group_names_not_arithmetic. now apply (lexer_type s).
Qed.

(** C1.  On the tokens of [1 + 2 * 3], [expression] returns the [Value]
    node of the first term alone and stops in front of the first
    operator; in the program [BEGIN A := 1 + 2 * 3 END] the operators and
    the later terms are skipped by the recovery loop of [program], and
    no leaf with the text [1 + 2 * 3] is built. *)
Theorem expression_1_plus_2_times_3 :
  Parser.expression (reading (lexer "1 + 2 * 3") false [])
  = Parser.Return
      (Node "Value" [Tok (mkToken "INT" "1" 1 1)] None)
      (reading [mkToken "OPERATOR" "+ " 3 1; mkToken "INT" "2" 4 1;
                mkToken "OPERATOR" "* " 6 1; mkToken "INT" "3" 7 1]
               false ["Consuming: INT"])
  /\ parse_source "BEGIN A := 1 + 2 * 3 END"
     = Parser.Return
         (Node "Program"
            [Node "Statements"
               [Node "Assignment"
                  [Node "Assignments"
                     [Node "Assignment"
                        [Node "Variable" [] (Some "A");
                         Node "Value" [Tok (mkToken "INT" "1" 7 1)] None;
                         Node "Value" [Tok (mkToken "ID" "A" 3 1)] None]
                        None]
                     None]
                  None]
               None]
            None)
         (Parser.mk [] None false
            ["Consuming: BEGIN"; "Consuming: ID"; "Consuming: ASSIGN";
             "Consuming: INT"; "Skipping: OPERATOR"; "Skipping: INT";
             "Skipping: OPERATOR"; "Skipping: INT"; "Consuming: END"]).
Proof. split; reflexivity. Qed.

(* ===================================================================== *)
(** ** Termination *)

Lemma bounded_le {A} (c : Parser.M A) self b b' :
  bounded c self b -> b <= b' -> bounded c self b'.
Proof. unfold bounded. destruct (c self); auto. lia. Qed.

Lemma bounded_ret {A} (a : A) self b :
  remaining self <= b -> bounded (Parser.ret a) self b.
Proof. auto. Qed.

Lemma bounded_raise {A} e self b : bounded (@Parser.raise A e) self b.
Proof. exact I. Qed.

Lemma bounded_bind {A B} (c : Parser.M A) (k : A -> Parser.M B) self b1 b2 :
  bounded c self b1 ->
  (forall a self', c self = Parser.Return a self' ->
                   remaining self' <= b1 -> bounded (k a) self' b2) ->
  bounded (Parser.bind c k) self b2.
Proof.
  unfold bounded at 1 3, Parser.bind. destruct (c self) as [a self'| |]; auto.
  intros H Hk. exact (Hk a self' eq_refl H).
Qed.

Lemma bounded_get {B} (k : Parser.t -> Parser.M B) self b :
  bounded (k self) self b -> bounded (Parser.bind Parser.get k) self b.
Proof. auto. Qed.

Lemma bounded_print line self : bounded (Parser.print line) self (remaining self).
Proof. unfold bounded. simpl. reflexivity. Qed.

Lemma bounded_set_panic_mode b self :
  bounded (Parser.set_panic_mode b) self (remaining self).
Proof. unfold bounded. simpl. reflexivity. Qed.

Lemma remaining_Some self tok :
  Parser.current_token self = Some tok ->
  remaining self = S (length (Parser.lexer self)).
Proof. unfold remaining, pending. now intros ->. Qed.

Lemma bounded_advance self : bounded Parser.advance self (remaining self).
Proof.
  destruct self as [[|t lex] [tok|] panic out];
    unfold bounded, remaining, pending; simpl; lia.
Qed.

Lemma bounded_advance_Some self tok :
  Parser.current_token self = Some tok ->
  bounded Parser.advance self (pred (remaining self)).
Proof.
  destruct self as [[|t lex] cur panic out]; simpl; intros ->;
    unfold bounded, remaining, pending; simpl; lia.
Qed.

Lemma skip_loop_remaining (wanted : string -> bool) (loud : bool) (lex : list Token) :
  forall tok out cur' lex' out',
    Parser.skip_loop wanted loud (Some tok) lex out = (cur', lex', out') ->
    match cur' with
    | Some _ => length lex' <= length lex
    | None => lex' = []
    end.
Proof.
  induction lex as [|t lex IH]; intros tok out cur' lex' out'; cbn [Parser.skip_loop].
  - destruct (wanted (type tok)); intros [= <- <- <-]; auto.
  - destruct (wanted (type tok)); [intros [= <- <- <-]; auto |].
    intros H. apply IH in H. destruct cur'; simpl; auto.
Qed.

Lemma skip_until_cases (wanted : string -> bool) (loud : bool) self :
  exists self',
    Parser.skip_until wanted loud self = Parser.Return tt self'
    /\ Parser.panic_mode self' = Parser.panic_mode self
    /\ remaining self' <= remaining self
    /\ (Parser.current_token self <> None ->
        Parser.current_token self' = None -> remaining self' = 0).
Proof.
  destruct self as [lex [tok|] panic out]; unfold Parser.skip_until;
    cbn [Parser.panic_mode Parser.current_token Parser.lexer Parser.stdout].
  - destruct (Parser.skip_loop wanted loud (Some tok) lex out)
      as [[cur' lex'] out'] eqn:E.
    apply skip_loop_remaining in E.
    eexists. split; [reflexivity |]. split; [reflexivity |].
    unfold remaining, pending. simpl. destruct cur'; simpl.
    + split; [lia | discriminate].
    + subst lex'. simpl. split; [lia | reflexivity].
  - destruct lex; simpl; eexists; (split; [reflexivity |]);
      (split; [reflexivity |]); split; auto; congruence.
Qed.

Lemma bounded_skip_until wanted loud self :
  bounded (Parser.skip_until wanted loud) self (remaining self).
Proof.
  destruct (skip_until_cases wanted loud self) as (self' & E & _ & H & _).
  unfold bounded. now rewrite E.
Qed.

(** [consume] never gives tokens back, and with a current token it
    takes at least one, in either mode. *)
Lemma bounded_consume expected self :
  bounded (Parser.consume expected) self (remaining self).
Proof.
  unfold Parser.consume. apply bounded_get.
  destruct (Parser.panic_mode self).
  - eapply bounded_bind; [apply bounded_skip_until |].
    intros _ self1 _ H. apply bounded_get.
    eapply bounded_le; [| exact H].
    destruct (Parser.current_token self1) as [tok|]; [| apply bounded_advance].
    destruct (String.eqb (type tok) expected); [| apply bounded_advance].
    eapply bounded_bind; [apply bounded_set_panic_mode |].
    intros _ self2 _ H2. eapply bounded_le; [apply bounded_advance | exact H2].
  - destruct (Parser.current_token self) as [tok|].
    + destruct (String.eqb (type tok) expected).
      * eapply bounded_bind; [apply bounded_print |].
        intros _ self2 _ H2. eapply bounded_le; [apply bounded_advance | exact H2].
      * eapply bounded_bind; [apply bounded_set_panic_mode |].
        intros _ self2 _ H2.
        eapply bounded_bind; [apply bounded_print |].
        intros _ self3 _ H3.
        eapply bounded_le; [apply bounded_advance | lia].
    + destruct (String.eqb expected "END"); [now apply bounded_ret | exact I].
Qed.

Lemma consume_Some expected self tok :
  Parser.current_token self = Some tok ->
  bounded (Parser.consume expected) self (pred (remaining self)).
Proof.
  intros Hcur.
  destruct self as [lex cur panic out]. simpl in Hcur. subst cur.
  unfold bounded, Parser.consume, Parser.bind, Parser.get.
  cbn [Parser.panic_mode Parser.current_token].
  destruct panic.
  - destruct (skip_until_cases (fun ty => String.eqb ty expected) true
                (Parser.mk lex (Some tok) true out))
      as (self1 & E & _ & H & H0).
    rewrite E. destruct self1 as [lex1 [tok1|] panic1 out1];
      cbn [Parser.current_token].
    + unfold remaining, pending in *. simpl in H.
      destruct (String.eqb (type tok1) expected); destruct lex1; simpl in *; lia.
    + specialize (H0 ltac:(discriminate) eq_refl).
      unfold remaining, pending in *. simpl in *.
      destruct lex1; simpl in *; lia.
  - destruct (String.eqb (type tok) expected); destruct lex;
      unfold remaining, pending; simpl; lia.
Qed.

Lemma bounded_term self : bounded Parser.term self (pred (remaining self)).
Proof.
  unfold Parser.term. apply bounded_get.
  destruct (Parser.current_token self) as [tok|] eqn:E; [| exact I].
  destruct (type_in (type tok) Parser.term_start); [| exact I].
  eapply bounded_bind; [apply (consume_Some _ _ _ E) |].
  intros _ self1 _ H. now apply bounded_ret.
Qed.

Lemma bounded_expression self :
  bounded Parser.expression self (pred (remaining self)).
Proof.
  unfold Parser.expression.
  eapply bounded_bind; [apply bounded_term |].
  intros left_term self1 _ H1. apply bounded_get.
  destruct (Parser.current_token self1) as [operator|];
    [| now apply bounded_ret].
  destruct (negb (Parser.panic_mode self1) && type_in (type operator) ["+"; "-"; "*"; "/"]);
    [| now apply bounded_ret].
  eapply bounded_bind; [apply bounded_consume |].
  intros _ self2 _ H2. apply bounded_get.
  destruct (Parser.current_token self2) as [tok|]; [| exact I].
  destruct (negb (type_in (type tok) Parser.term_start)).
  - eapply bounded_bind; [apply bounded_set_panic_mode |].
    intros _ self3 _ H3. apply bounded_ret. lia.
  - eapply bounded_bind; [apply bounded_term |].
    intros right_term self3 _ _. exact I.
Qed.

Lemma bounded_var_declaration_while (fuel : nat) :
  forall var_type var_nodes self,
    remaining self < fuel ->
    bounded (Parser.var_declaration_while fuel var_type var_nodes) self
            (remaining self).
Proof.
  induction fuel as [|fuel IH]; intros var_type var_nodes self Hfuel; [lia |].
  cbn [Parser.var_declaration_while]. apply bounded_get.
  destruct (Parser.current_token self) as [tok|] eqn:E; [| exact I].
  destruct (String.eqb (type tok) "COMMA"); [| now apply bounded_ret].
  eapply bounded_bind; [apply (consume_Some _ _ _ E) |].
  intros _ self1 _ H1. apply bounded_get.
  destruct (Parser.current_token self1) as [name|]; [| exact I].
  eapply bounded_bind; [apply bounded_consume |].
  intros _ self2 _ H2.
  rewrite (remaining_Some _ _ E) in *. simpl in H1.
  eapply bounded_le; [apply IH |]; lia.
Qed.

Lemma bounded_var_declaration (fuel : nat) self :
  remaining self <= fuel ->
  bounded (Parser.var_declaration fuel) self (pred (remaining self)).
Proof.
  intros Hfuel. unfold Parser.var_declaration. apply bounded_get.
  destruct (Parser.current_token self) as [tok|] eqn:E; [| exact I].
  eapply bounded_bind; [apply (consume_Some _ _ _ E) |].
  intros _ self1 _ H1. apply bounded_get.
  destruct (Parser.current_token self1) as [name|] eqn:E1; [| exact I].
  eapply bounded_bind; [apply (consume_Some _ _ _ E1) |].
  intros _ self2 _ H2.
  rewrite (remaining_Some _ _ E) in *. rewrite (remaining_Some _ _ E1) in *.
  simpl in H1, H2.
  eapply bounded_bind; [apply bounded_var_declaration_while; lia |].
  intros var_nodes self3 _ H3. apply bounded_ret. simpl. lia.
Qed.

Lemma bounded_assignment_value self (tok : Token) :
  bounded (if String.eqb (type tok) "ASSIGN"
           then Parser.consume "ASSIGN" ;; Parser.expression
           else Parser.ret PyNone) self (remaining self).
Proof.
  destruct (String.eqb (type tok) "ASSIGN"); [| now apply bounded_ret].
  eapply bounded_bind; [apply bounded_consume |].
  intros _ self1 _ H1.
  eapply bounded_le; [apply bounded_expression | lia].
Qed.

Lemma bounded_assignment_while (fuel : nat) :
  forall assignment_nodes self,
    remaining self < fuel ->
    bounded (Parser.assignment_while fuel assignment_nodes) self
            (remaining self).
Proof.
  induction fuel as [|fuel IH]; intros assignment_nodes self Hfuel; [lia |].
  cbn [Parser.assignment_while]. apply bounded_get.
  destruct (Parser.current_token self) as [variable_token|] eqn:E;
    [| now apply bounded_ret].
  destruct (negb (Parser.panic_mode self) && String.eqb (type variable_token) "ID");
    [| now apply bounded_ret].
  eapply bounded_bind; [apply (consume_Some _ _ _ E) |].
  intros _ self1 _ H1. apply bounded_get.
  destruct (Parser.current_token self1) as [tok|]; [| exact I].
  eapply bounded_bind; [apply bounded_assignment_value |].
  intros expression_node self2 _ H2.
  rewrite (remaining_Some _ _ E) in *. simpl in H1.
  eapply bounded_le; [apply IH |]; lia.
Qed.

(** Entered on an identifier in normal mode, the assignment loop runs
    at least once. *)
Lemma bounded_assignment (fuel : nat) self (tok : Token) :
  Parser.panic_mode self = false ->
  Parser.current_token self = Some tok ->
  type tok = "ID" ->
  remaining self < fuel ->
  bounded (Parser.assignment fuel) self (pred (remaining self)).
Proof.
  intros Hp E Hty Hfuel. unfold Parser.assignment.
  eapply bounded_bind with (b1 := pred (remaining self));
    [| intros nodes self1 _ H1; now apply bounded_ret].
  destruct fuel as [|fuel]; [lia |].
  cbn [Parser.assignment_while]. apply bounded_get. rewrite E, Hp, Hty.
  cbn [negb andb String.eqb Ascii.eqb Bool.eqb].
  eapply bounded_bind; [apply (consume_Some _ _ _ E) |].
  intros _ self1 _ H1. apply bounded_get.
  destruct (Parser.current_token self1) as [tok1|]; [| exact I].
  eapply bounded_bind; [apply bounded_assignment_value |].
  intros expression_node self2 _ H2.
  rewrite (remaining_Some _ _ E) in *. simpl in H1 |- *.
  eapply bounded_le; [apply bounded_assignment_while |]; lia.
Qed.

Lemma bounded_recovery_for_loop self :
  bounded recovery_for_loop self (remaining self).
Proof.
  unfold recovery_for_loop.
  eapply bounded_bind; [apply bounded_skip_until |].
  intros _ self1 _ H1. now apply bounded_ret.
Qed.

(** [for_loop] takes the [FOR] it is entered on; the statement list of
    its body is only ever run on fewer tokens than [for_loop] began with. *)
Lemma bounded_for_loop (statement_list : Parser.M Obj) self (tok : Token) :
  Parser.current_token self = Some tok ->
  (forall self', remaining self' < remaining self ->
                 bounded statement_list self' (remaining self')) ->
  bounded (Parser.for_loop statement_list) self (pred (remaining self)).
Proof.
  intros E Hsl. unfold Parser.for_loop.
  eapply bounded_bind; [apply (consume_Some _ _ _ E) |].
  intros _ self1 _ H1. apply bounded_get.
  rewrite (remaining_Some _ _ E) in *. simpl in H1 |- *.
  destruct (Parser.panic_mode self1).
  { eapply bounded_le; [apply bounded_recovery_for_loop | lia]. }
  destruct (Parser.current_token self1) as [start_val_token|]; [| exact I].
  destruct (String.eqb (type start_val_token) "ID");
    [| eapply bounded_le; [apply bounded_recovery_for_loop | lia]].
  eapply bounded_bind; [apply bounded_consume |]. intros _ self2 _ H2.
  eapply bounded_bind; [apply bounded_consume |]. intros _ self3 _ H3.
  eapply bounded_bind; [apply bounded_expression |]. intros _ self4 _ H4.
  eapply bounded_bind; [apply bounded_consume |]. intros _ self5 _ H5.
  apply bounded_get.
  destruct (Parser.current_token self5) as [end_val_token|]; [| exact I].
  eapply bounded_bind; [apply bounded_expression |]. intros _ self6 _ H6.
  eapply bounded_bind; [apply Hsl; lia |]. intros statements_node self7 _ H7.
  eapply bounded_bind; [apply bounded_consume |]. intros _ self8 _ H8.
  apply bounded_ret. lia.
Qed.

(** One statement, entered in normal mode on a token, takes at least
    that token. *)
Lemma bounded_statement (fuel : nat) (statement_list : Parser.M Obj) self (tok : Token) :
  Parser.panic_mode self = false ->
  Parser.current_token self = Some tok ->
  remaining self < fuel ->
  (forall self', remaining self' < remaining self ->
                 bounded statement_list self' (remaining self')) ->
  bounded (Parser.statement fuel statement_list) self (pred (remaining self)).
Proof.
  intros Hp E Hfuel Hsl. unfold Parser.statement. apply bounded_get.
  rewrite Hp, E.
  destruct (String.eqb (type tok) "PRINT").
  { eapply bounded_bind; [apply (consume_Some _ _ _ E) |].
    intros _ self1 _ H1. apply bounded_get.
    eapply bounded_bind; [apply bounded_consume |].
    intros _ self2 _ H2. apply bounded_ret. lia. }
  destruct (type_in (type tok) ["INTEGER"; "REAL"; "STRING"]).
  { eapply bounded_bind; [apply bounded_var_declaration; lia |].
    intros node self1 _ H1. now apply bounded_ret. }
  destruct (String.eqb (type tok) "ID") eqn:Hid.
  { apply String.eqb_eq in Hid.
    eapply bounded_bind; [apply (bounded_assignment fuel self tok); auto |].
    intros node self1 _ H1. now apply bounded_ret. }
  destruct (String.eqb (type tok) "FOR"); [| exact I].
  eapply bounded_bind; [apply (bounded_for_loop _ _ tok); auto |].
  intros [[for_loop_node start_value] end_value] self1 _ H1.
  now apply bounded_ret.
Qed.

Lemma at_type_Some self names :
  Parser.at_type self names = true ->
  exists tok, Parser.current_token self = Some tok.
Proof.
  unfold Parser.at_type. destruct (Parser.current_token self) as [tok|];
    [eauto | discriminate].
Qed.

(** The statement list never runs out of fuel when it has two units more
    than there are unread tokens, and never un-reads a token. *)
Lemma bounded_statement_list_while (fuel : nat) :
  forall statements_node self,
    remaining self + 2 <= fuel ->
    bounded (Parser.statement_list_while fuel statements_node) self
            (remaining self).
Proof.
  induction fuel as [|fuel IH]; intros statements_node self Hfuel; [lia |].
  cbn [Parser.statement_list_while]. apply bounded_get.
  destruct (negb (Parser.panic_mode self)
            && Parser.at_type self Parser.statement_start) eqn:C;
    [| now apply bounded_ret].
  apply andb_prop in C. destruct C as [Hp Hat].
  apply negb_true_iff in Hp. apply at_type_Some in Hat. destruct Hat as [tok E].
  eapply bounded_bind.
  - apply (bounded_statement fuel _ self tok Hp E); [lia |].
    intros self' Hlt. apply IH. lia.
  - intros statement_node self1 _ H1.
    rewrite (remaining_Some _ _ E) in *. simpl in H1.
    eapply bounded_le; [apply IH |]; lia.
Qed.

Lemma bounded_program (fuel : nat) self (tok : Token) :
  Parser.current_token self = Some tok ->
  remaining self < fuel ->
  bounded (Parser.program fuel) self (remaining self).
Proof.
  intros E Hfuel. unfold Parser.program, Parser.statement_list.
  eapply bounded_bind; [apply (consume_Some _ _ _ E) |].
  intros _ self1 _ H1.
  rewrite (remaining_Some _ _ E) in *. simpl in H1.
  eapply bounded_bind; [apply bounded_statement_list_while; lia |].
  intros statements_node self2 _ H2.
  eapply bounded_bind; [apply bounded_skip_until |]. intros _ self3 _ H3.
  apply bounded_get.
  eapply bounded_bind with (b1 := remaining self3).
  { destruct (Parser.at_type self3 ["BEGIN"]);
      [apply bounded_print | now apply bounded_ret]. }
  intros _ self4 _ H4. apply bounded_get.
  eapply bounded_bind with (b1 := remaining self4).
  { destruct (Parser.at_type self4 ["END"]);
      [apply bounded_consume | apply bounded_print]. }
  intros _ self5 _ H5. apply bounded_ret. lia.
Qed.

Lemma bounded_parse (toks : list Token) :
  bounded (Parser.parse (S (length toks))) (Parser.init toks) (length toks).
Proof.
  unfold bounded, Parser.parse, Parser.init. cbn [Parser.lexer].
  destruct toks as [|tok rest]; [exact I |].
  cbn [Parser.panic_mode Parser.stdout].
  apply (bounded_program _ (Parser.mk rest (Some tok) false []) tok eq_refl).
  unfold remaining, pending. simpl. lia.
Qed.

Lemma consume_panic_Return expected self :
  Parser.panic_mode self = true ->
  exists self', Parser.consume expected self = Parser.Return tt self'.
Proof.
  intros Hp. unfold Parser.consume, Parser.bind at 1, Parser.get at 1.
  rewrite Hp.
  destruct (skip_until_cases (fun ty => String.eqb ty expected) true self)
    as (self1 & E & _).
  rewrite (bind_step _ _ _ _ _ E). unfold Parser.bind at 1, Parser.get at 1.
  destruct self1 as [lex1 [tok1|] panic1 out1]; cbn [Parser.current_token].
  - destruct (String.eqb (type tok1) expected); destruct lex1;
      eexists; reflexivity.
  - destruct lex1; eexists; reflexivity.
Qed.

(* ===================================================================== *)
(** ** The fuel does not show in the result *)

Lemma refines_refl {A} (c : Parser.M A) : refines c c.
Proof. intros self _. reflexivity. Qed.

Lemma refines_bind {A B} (c1 c2 : Parser.M A) (k1 k2 : A -> Parser.M B) :
  refines c1 c2 ->
  (forall a, refines (k1 a) (k2 a)) ->
  refines (Parser.bind c1 k1) (Parser.bind c2 k2).
Proof.
  intros Hc Hk self. unfold Parser.bind. specialize (Hc self).
  destruct (c1 self) as [a self1|e|] eqn:E.
  - rewrite <- Hc by discriminate. apply Hk.
  - rewrite <- Hc by discriminate. reflexivity.
  - congruence.
Qed.

Ltac refines_step :=
  match goal with
  | |- refines ?c ?c => apply refines_refl
  | |- refines (Parser.bind _ _) (Parser.bind _ _) =>
      apply refines_bind; [| intros ?]
  | |- refines (match ?x with _ => _ end) (match ?x with _ => _ end) =>
      destruct x
  end.

Lemma var_declaration_while_mono (fuel : nat) :
  forall fuel' var_type var_nodes,
    fuel <= fuel' ->
    refines (Parser.var_declaration_while fuel var_type var_nodes)
            (Parser.var_declaration_while fuel' var_type var_nodes).
Proof.
  induction fuel as [|fuel IH]; intros fuel' var_type var_nodes Hle.
  - intros self H. now contradiction H.
  - destruct fuel' as [|fuel']; [lia |].
    cbn [Parser.var_declaration_while].
    repeat refines_step. apply IH. lia.
Qed.

Lemma assignment_while_mono (fuel : nat) :
  forall fuel' assignment_nodes,
    fuel <= fuel' ->
    refines (Parser.assignment_while fuel assignment_nodes)
            (Parser.assignment_while fuel' assignment_nodes).
Proof.
  induction fuel as [|fuel IH]; intros fuel' assignment_nodes Hle.
  - intros self H. now contradiction H.
  - destruct fuel' as [|fuel']; [lia |].
    cbn [Parser.assignment_while].
    repeat refines_step. apply IH. lia.
Qed.

Lemma for_loop_mono (sl1 sl2 : Parser.M Obj) :
  refines sl1 sl2 -> refines (Parser.for_loop sl1) (Parser.for_loop sl2).
Proof.
  intros Hsl. unfold Parser.for_loop. repeat refines_step. exact Hsl.
Qed.

Lemma statement_mono (fuel fuel' : nat) (sl1 sl2 : Parser.M Obj) :
  fuel <= fuel' ->
  refines sl1 sl2 ->
  refines (Parser.statement fuel sl1) (Parser.statement fuel' sl2).
Proof.
  intros Hle Hsl. unfold Parser.statement, Parser.var_declaration, Parser.assignment.
  repeat refines_step.
  - now apply var_declaration_while_mono.
  - now apply assignment_while_mono.
  - now apply for_loop_mono.
Qed.

Lemma statement_list_while_mono (fuel : nat) :
  forall fuel' statements_node,
    fuel <= fuel' ->
    refines (Parser.statement_list_while fuel statements_node)
            (Parser.statement_list_while fuel' statements_node).
Proof.
  induction fuel as [|fuel IH]; intros fuel' statements_node Hle.
  - intros self H. now contradiction H.
  - destruct fuel' as [|fuel']; [lia |].
    cbn [Parser.statement_list_while].
    repeat refines_step.
    + apply statement_mono; [lia |]. apply IH. lia.
    + apply IH. lia.
Qed.

Lemma parse_mono (fuel fuel' : nat) :
  fuel <= fuel' -> refines (Parser.parse fuel) (Parser.parse fuel').
Proof.
  intros Hle self. unfold Parser.parse.
  destruct (Parser.lexer self) as [|tok rest]; [reflexivity |].
  revert self. intros self.
  assert (H : refines (Parser.program fuel) (Parser.program fuel')).
  { unfold Parser.program, Parser.statement_list. repeat refines_step.
    now apply statement_list_while_mono. }
  apply H.
Qed.

(** With more fuel than one unit per token and one more, [parse] has the
    outcome of [parse_tokens]. *)
Lemma parse_fuel_irrelevant (fuel : nat) (toks : list Token) :
  length toks < fuel ->
  Parser.parse fuel (Parser.init toks) = parse_tokens toks.
Proof.
  intros Hfuel. symmetry. unfold parse_tokens.
  apply (parse_mono (S (length toks)) fuel); [lia |].
  pose proof (bounded_parse toks) as H. unfold bounded in H.
  intros E. now rewrite E in H.
Qed.

(** *** Termination of [parse] *)

(** C2 (as stated) fails: called in panic mode when the input is already
    exhausted, [consume] returns at once with the cursor where it was.
    That call happens: the body of an unclosed [FOR] that ends on a bad
    [PRINT] leaves exactly this state for the [consume('END')] of
    [for_loop]. *)
Lemma consume_in_panic_at_end_of_input :
  let self :=
    Parser.mk [] None true
      ["Consuming: PRINT";
       "Unexpected token 'INT' at line 3. Expected 'STRING_LITERAL'."] in
  (exists node,
      Parser.statement_list 3 (reading (lexer "PRINT 3") false [])
      = Parser.Return node self)
  /\ Parser.panic_mode self = true
  /\ Parser.consume "END" self = Parser.Return tt self
  /\ ~ (exists self',
          Parser.consume "END" self = Parser.Return tt self'
          /\ remaining self' < remaining self).
Proof.
  cbv zeta. split; [eexists; vm_compute; reflexivity |].
  split; [reflexivity |]. split; [reflexivity |].
  intros (self' & H & Hlt). vm_compute in H. injection H as <-.
  vm_compute in Hlt. lia.
Qed.

(** C2 (amended).  [parse] terminates on every token sequence: it
    returns or raises, with one unit of fuel per token and one more, and
    more fuel does not change the outcome.  The argument is progress.
    In panic mode [consume] returns, and with a current token it leaves
    strictly fewer tokens unread; without one the input is exhausted and
    nothing moves.  One round of the statement list takes at least one
    token, and so does an expression.  The statement list, the
    assignment chain and the skipping loops never give a token back. *)
Theorem parse_terminates_by_progress
        (toks : list Token) (expected : string) (fuel : nat) (self : Parser.t) :
  ((exists node self', parse_tokens toks = Parser.Return node self')
   \/ (exists e, parse_tokens toks = Parser.Raise e))
  /\ (length toks < fuel ->
      Parser.parse fuel (Parser.init toks) = parse_tokens toks)
  /\ (Parser.panic_mode self = true ->
      Parser.current_token self <> None ->
      exists self',
        Parser.consume expected self = Parser.Return tt self'
        /\ remaining self' < remaining self)
  /\ (Parser.panic_mode self = false ->
      Parser.at_type self Parser.statement_start = true ->
      remaining self < fuel ->
      0 < remaining self
      /\ bounded (Parser.statement fuel (Parser.statement_list fuel)) self
                 (pred (remaining self)))
  /\ (remaining self + 2 <= fuel ->
      bounded (Parser.statement_list fuel) self (remaining self))
  /\ (remaining self < fuel ->
      forall nodes,
        bounded (Parser.assignment_while fuel nodes) self (remaining self))
  /\ bounded Parser.expression self (pred (remaining self))
  /\ (forall wanted loud,
        bounded (Parser.skip_until wanted loud) self (remaining self)).
Proof.
  split.
  { pose proof (bounded_parse toks) as H. unfold bounded in H.
    unfold parse_tokens.
    destruct (Parser.parse (S (length toks)) (Parser.init toks)) as [node self'|e|];
      [left; eauto | right; eauto | contradiction]. }
  split; [apply parse_fuel_irrelevant |].
  split.
  { intros Hp Hcur.
    destruct (Parser.current_token self) as [tok|] eqn:E; [| congruence].
    destruct (consume_panic_Return expected self Hp) as [self' Hc].
    exists self'. split; [exact Hc |].
    pose proof (consume_Some expected self tok E) as H. unfold bounded in H.
    rewrite Hc in H. rewrite (remaining_Some _ _ E) in *. simpl in H. lia. }
  split.
  { intros Hp Hat Hfuel. apply at_type_Some in Hat. destruct Hat as [tok E].
    split; [rewrite (remaining_Some _ _ E); lia |].
    apply (bounded_statement fuel _ self tok Hp E Hfuel).
    intros self' Hlt. apply bounded_statement_list_while. lia. }
  split; [intros Hfuel; now apply bounded_statement_list_while |].
  split; [intros Hfuel nodes; now apply bounded_assignment_while |].
  split; [apply bounded_expression |].
  intros wanted loud. apply bounded_skip_until.
Qed.

Lemma parse_terminates_by_progress_witness :
  let toks := lexer "BEGIN FOR I := 1 TO 5 PRINT 3" in
  let panicking :=
    Parser.mk [mkToken "END" "END" 3 1] (Some (mkToken "INT" "3" 2 1)) true [] in
  let normal := reading (lexer "PRINT 3 END") false [] in
  ((exists node self', parse_tokens toks = Parser.Return node self')
   \/ (exists e, parse_tokens toks = Parser.Raise e))
  /\ Parser.parse 20 (Parser.init toks) = parse_tokens toks
  /\ (exists self',
        Parser.consume "END" panicking = Parser.Return tt self'
        /\ remaining self' < remaining panicking)
  /\ (0 < remaining normal
      /\ bounded (Parser.statement 5 (Parser.statement_list 5)) normal
                 (pred (remaining normal)))
  /\ bounded (Parser.statement_list 5) normal (remaining normal)
  /\ (forall nodes,
        bounded (Parser.assignment_while 5 nodes) normal (remaining normal)).
Proof.
  cbv zeta.
  pose proof (parse_terminates_by_progress
                (lexer "BEGIN FOR I := 1 TO 5 PRINT 3") "END" 20
                (Parser.mk [mkToken "END" "END" 3 1]
                           (Some (mkToken "INT" "3" 2 1)) true []))
    as (H1 & H0 & H2 & _).
  pose proof (parse_terminates_by_progress
                [] "END" 5 (reading (lexer "PRINT 3 END") false []))
    as (_ & _ & _ & H3 & H4 & H5 & _).
  split; [exact H1 |].
  split; [apply H0; vm_compute; lia |].
  split; [apply H2; [reflexivity | discriminate] |].
  split; [apply H3; [reflexivity | reflexivity | vm_compute; lia] |].
  split; [apply H4; vm_compute; lia |].
  apply H5. vm_compute. lia.
Defined.

(* ===================================================================== *)
(** ** Further properties of the lexer *)

(** Where a token comes from: a scan position of the source at which
    [token_pattern] matched its text under its type, the type not being
    [WHITESPACE]; its line is at least the one the loop was at. *)
Lemma lexer_matches_origin (s : string) :
  forall skip line col t,
    In t (lexer_matches (finditer_from s skip) line col) ->
    exists pre s' rest,
      s = pre ++ s'
      /\ token_pattern s' = Some (type t, value t, rest)
      /\ String.eqb (type t) "WHITESPACE" = false
      /\ line <= line_number t.
Proof.
  induction s as [|c s IH]; intros skip line col t; [simpl; tauto |].
  assert (Hshift : forall skip' line' col',
             In t (lexer_matches (finditer_from s skip') line' col') ->
             line <= line' ->
             exists pre s' rest,
               String c s = pre ++ s'
               /\ token_pattern s' = Some (type t, value t, rest)
               /\ String.eqb (type t) "WHITESPACE" = false
               /\ line <= line_number t).
  { intros skip' line' col' Hin Hle. apply IH in Hin.
    destruct Hin as (pre & s' & rest & -> & Hm & Hw & Hl).
    exists (String c pre), s', rest. repeat split; auto. lia. }
  destruct skip as [|n]; [| intros Hin; now apply (Hshift n line col)].
  rewrite finditer_from_cons.
  destruct (token_pattern (String c s)) as [[[name v] rest]|] eqn:E;
    [| intros Hin; now apply (Hshift 0 line col)].
  rewrite lexer_matches_cons.
  rewrite (lexer_groups_groupdict name v line col (token_pattern_name _ _ _ _ E)).
  intros Hin. apply in_app_or in Hin. destruct Hin as [Hin | Hin].
  - unfold emitted in Hin.
    destruct (String.eqb name "WHITESPACE") eqn:Hw;
      [rewrite andb_false_r in Hin; contradiction |].
    destruct (negb (String.eqb v "")); [| contradiction].
    destruct Hin as [<- | []]. cbn [type value line_number].
    exists "", (String c s), rest. repeat split; auto.
  - apply (Hshift _ _ _ Hin). lia.
Qed.

(** X1.  Every token of the lexer carries the name of a group other than
    [WHITESPACE] as its type and a non-empty text, and that text stands
    in the source. *)
Theorem lexer_token_wellformed (s : string) (t : Token) :
  In t (lexer s) ->
  In (type t) group_names
  /\ type t <> "WHITESPACE"
  /\ value t <> ""
  /\ exists pre post, s = pre ++ value t ++ post.
Proof.
  intros Hin. apply lexer_matches_origin in Hin.
  destruct Hin as (pre & s' & rest & -> & Hm & Hw & _).
  split; [now apply token_pattern_name in Hm |].
  split; [now apply String.eqb_neq in Hw |].
  destruct (token_pattern_prefix _ _ _ _ Hm) as [-> Hv].
  split; [exact Hv |]. now exists pre, rest.
Qed.

Lemma lexer_token_wellformed_witness :
  In "ID" group_names
  /\ "ID" <> "WHITESPACE"
  /\ "NER" <> ""
  /\ exists pre post, "BEGINNER $ 1" = pre ++ "NER" ++ post.
Proof.
  apply (lexer_token_wellformed "BEGINNER $ 1" (mkToken "ID" "NER" 2 1)).
  vm_compute. tauto.
Defined.

Lemma lexer_matches_lines (s : string) :
  forall skip line col,
    StronglySorted lt
      (map line_number (lexer_matches (finditer_from s skip) line col))
    /\ Forall (fun t => line <= line_number t /\ (column t = col \/ column t = 1))
              (lexer_matches (finditer_from s skip) line col).
Proof.
  induction s as [|c s IH]; intros skip line col;
    [split; constructor |].
  assert (Hshift : forall skip' line',
             line <= line' ->
             Forall (fun t => line <= line_number t /\ (column t = col \/ column t = 1))
                    (lexer_matches (finditer_from s skip') line' 1)).
  { intros skip' line' Hle. destruct (IH skip' line' 1) as [_ HF].
    eapply Forall_impl; [| exact HF]. cbv beta. intros t [Hl Hc].
    split; [lia | tauto]. }
  destruct skip as [|n].
  2:{ destruct (IH n line col) as [HS HF]. split; [exact HS | exact HF]. }
  rewrite finditer_from_cons.
  destruct (token_pattern (String c s)) as [[[name v] rest]|] eqn:E.
  2:{ destruct (IH 0 line col) as [HS HF]. split; [exact HS | exact HF]. }
  rewrite lexer_matches_cons.
  rewrite (lexer_groups_groupdict name v line col (token_pattern_name _ _ _ _ E)).
  destruct (IH (String.length v - 1) (line + 1) 1) as [HS HF].
  unfold emitted.
  destruct (negb (String.eqb v "") && negb (String.eqb name "WHITESPACE")).
  - cbn [List.app map line_number]. split.
    + constructor; [exact HS |]. apply Forall_map.
      eapply Forall_impl; [| exact HF]. cbv beta. intros t [Hl _]. lia.
    + constructor; [cbn; split; [lia | now left] |].
      apply Hshift. lia.
  - cbn [List.app]. split; [exact HS |]. apply Hshift. lia.
Qed.

(** X2.  The positions the lexer records: the column of every token is
    1, and the line numbers start at 1 or more and strictly increase
    from token to token. *)
Theorem lexer_positions (s : string) :
  Forall (fun t => column t = 1 /\ 1 <= line_number t) (lexer s)
  /\ StronglySorted lt (map line_number (lexer s)).
Proof.
  destruct (lexer_matches_lines s 0 1 1) as [HS HF].
  split; [| exact HS].
  eapply Forall_impl; [| exact HF]. cbv beta. intros t [Hl Hc].
  split; [tauto | exact Hl].
Qed.

Lemma star_greedy p s rest :
  star p s Some = Some rest ->
  exists a, s = a ++ rest
            /\ all_chars p a = true
            /\ match rest with
               | String d _ => p d = false
               | EmptyString => True
               end.
Proof.
  revert rest. induction s as [|c s IH]; intros rest; simpl.
  - intros [= <-]. now exists "".
  - destruct (p c) eqn:Hp.
    + destruct (star p s Some) as [r|] eqn:E;
        [| now destruct (star_total p s)].
      intros [= <-]. destruct (IH r eq_refl) as (a & -> & Ha & Hr).
      exists (String c a). simpl. now rewrite Hp, Ha.
    + intros [= <-]. exists "". now rewrite Hp.
Qed.

Lemma strip_prefix_self (k x : string) : strip_prefix k (k ++ x) = Some x.
Proof.
  induction k as [|a k IH]; simpl; [reflexivity |].
  now rewrite Ascii.eqb_refl.
Qed.

Lemma strip_prefix_extend (k v v' rest : string) :
  strip_prefix k v = Some v' -> strip_prefix k (v ++ rest) = Some (v' ++ rest).
Proof.
  intros H. apply strip_prefix_app in H. subst v.
  rewrite append_assoc. apply strip_prefix_self.
Qed.

Ltac failed_keyword H k :=
  match type of H with
  | match rmatch (Lit ?l) ?s Some with _ => _ end = _ =>
      let E := fresh "E" in
      destruct (rmatch (Lit l) s Some) eqn:E;
      [cbv beta iota in H; discriminate H |];
      assert (k : strip_prefix l s = None)
        by (cbn [rmatch] in E; destruct (strip_prefix l s); [discriminate E | reflexivity]);
      clear E
  end.

Lemma token_pattern_ID s v rest :
  token_pattern s = Some ("ID", v, rest) ->
  (forall k, In k keywords -> strip_prefix k s = None)
  /\ s = v ++ rest
  /\ (exists c body,
        v = String c body /\ is_letter c = true /\ all_chars is_alnum body = true)
  /\ match rest with
     | String d _ => is_alnum d = false
     | EmptyString => True
     end.
Proof.
  intros H.
  cbv beta iota delta [token_pattern token_specification match_alternatives] in H.
  failed_keyword H K1. failed_keyword H K2. failed_keyword H K3.
  failed_keyword H K4. failed_keyword H K5. failed_keyword H K6.
  failed_keyword H K7. failed_keyword H K8.
  do 2 next_alternative H.
  match type of H with
  | match rmatch ?r ?s Some with _ => _ end = _ =>
      destruct (rmatch r s Some) as [rest0|] eqn:E
  end.
  2:{ repeat next_alternative H. discriminate H. }
  cbv beta iota in H. injection H as <- <-.
  split.
  { intros k Hk. cbv [keywords token_specification firstn map fst In] in Hk.
    repeat (destruct Hk as [<- | Hk]; [assumption |]). contradiction. }
  destruct s as [|c s]; cbn [rmatch] in E; [discriminate E |].
  destruct (is_letter c) eqn:Hc; [| discriminate E].
  apply star_greedy in E. destruct E as (a & -> & Ha & Hr).
  change (String c (a ++ rest0)) with (String c a ++ rest0).
  rewrite matched_app. split; [reflexivity |].
  split; [now exists c, a | exact Hr].
Qed.

(** X3.  An identifier token is a letter followed by letters and digits,
    and it never begins with a keyword: an identifier spelt with a
    keyword in front (FORMAT, TOTAL, ENDING) is cut into the keyword and
    what follows. *)
Theorem lexer_ID_token (s : string) (t : Token) :
  In t (lexer s) ->
  type t = "ID" ->
  (exists c body,
      value t = String c body
      /\ is_letter c = true /\ all_chars is_alnum body = true)
  /\ forall k, In k keywords -> starts_with k (value t) = false.
Proof.
  intros Hin Hty. apply lexer_matches_origin in Hin.
  destruct Hin as (pre & s' & rest & _ & Hm & _). rewrite Hty in Hm.
  apply token_pattern_ID in Hm. destruct Hm as (Hk & -> & Hshape & _).
  split; [exact Hshape |].
  intros k Hin. specialize (Hk k Hin). unfold starts_with.
  destruct (strip_prefix k (value t)) as [v'|] eqn:E; [| reflexivity].
  rewrite (strip_prefix_extend _ _ _ rest E) in Hk. discriminate Hk.
Qed.

Lemma lexer_ID_token_witness :
  (exists c body,
      "MAT" = String c body
      /\ is_letter c = true /\ all_chars is_alnum body = true)
  /\ forall k, In k keywords -> starts_with k "MAT" = false.
Proof.
  apply (lexer_ID_token "FORMAT" (mkToken "ID" "MAT" 2 1)).
  - vm_compute. tauto.
  - reflexivity.
Defined.

(** Maximal munch: an identifier match stops only at the end of the text
    or in front of a character that is neither a letter nor a digit. *)
Lemma token_pattern_ID_maximal s v d rest :
  token_pattern s = Some ("ID", v, String d rest) -> is_alnum d = false.
Proof. intros H. now apply token_pattern_ID in H. Qed.

Lemma token_pattern_OPERATOR s v rest :
  token_pattern s = Some ("OPERATOR", v, rest) ->
  exists c ws,
    v = String c ws /\ is_op c = true
    /\ ws <> "" /\ all_chars is_space ws = true.
Proof.
  intros H.
  cbv beta iota delta [token_pattern token_specification match_alternatives] in H.
  do 14 next_alternative H.
  match type of H with
  | match rmatch ?r ?s Some with _ => _ end = _ =>
      destruct (rmatch r s Some) as [rest0|] eqn:E
  end.
  2:{ repeat next_alternative H. discriminate H. }
  cbv beta iota in H. injection H as <- <-.
  destruct s as [|c s]; cbn [rmatch] in E; [discriminate E |].
  destruct (is_op c) eqn:Hc; [| discriminate E].
  destruct s as [|d s]; [discriminate E |].
  destruct (is_space d) eqn:Hd; [| discriminate E].
  apply star_greedy in E. destruct E as (a & -> & Ha & _).
  change (String c (String d (a ++ rest0))) with (String c (String d a) ++ rest0).
  rewrite matched_app. exists c, (String d a).
  repeat split; auto; [discriminate | simpl; now rewrite Hd, Ha].
Qed.

(** X4.  The text of an operator token is the operator character and the
    whitespace after it, at least one character of it: an operator is
    only recognised in front of whitespace, and the whitespace is part of
    the token. *)
Theorem lexer_OPERATOR_token (s : string) (t : Token) :
  In t (lexer s) ->
  type t = "OPERATOR" ->
  exists c ws,
    value t = String c ws /\ is_op c = true
    /\ ws <> "" /\ all_chars is_space ws = true.
Proof.
  intros Hin Hty. apply lexer_matches_origin in Hin.
  destruct Hin as (pre & s' & rest & _ & Hm & _). rewrite Hty in Hm.
  now apply token_pattern_OPERATOR in Hm.
Qed.

Lemma lexer_OPERATOR_token_witness :
  exists c ws,
    "*  " = String c ws /\ is_op c = true
    /\ ws <> "" /\ all_chars is_space ws = true.
Proof.
  apply (lexer_OPERATOR_token "2 *  3" (mkToken "OPERATOR" "*  " 3 1)).
  - vm_compute. tauto.
  - reflexivity.
Defined.

Example lexer_sign_is_not_an_operator :
  lexer "1 +2" = [mkToken "INT" "1" 1 1; mkToken "INT" "+2" 3 1].
Proof. reflexivity. Qed.

Lemma token_pattern_no_start (c : ascii) (s : string) :
  begins_token c = false -> token_pattern (String c s) = None.
Proof.
  intros Hc. unfold token_pattern.
  destruct c as [[] [] [] [] [] [] [] []]; try discriminate Hc;
    cbn; reflexivity.
Qed.

(** X5.  Characters that begin no token are passed over without a token,
    a diagnostic or a change of the line counter: in front of any text
    they leave the tokens of that text as they are. *)
Theorem lexer_drops_unknown_characters (junk s : string) :
  all_chars (fun c => negb (begins_token c)) junk = true ->
  lexer (junk ++ s) = lexer s.
Proof.
  unfold lexer, finditer. induction junk as [|c junk IH]; [reflexivity |].
  cbn [all_chars]. intros H. apply andb_prop in H. destruct H as [Hc Hj].
  apply negb_true_iff in Hc.
  change (String c junk ++ s) with (String c (junk ++ s)).
  rewrite finditer_from_cons, (token_pattern_no_start c _ Hc).
  now apply IH.
Qed.

Lemma lexer_drops_unknown_characters_witness :
  lexer ("$@#" ++ "A := 1") = lexer "A := 1".
Proof.
  apply (lexer_drops_unknown_characters "$@#" "A := 1"). reflexivity.
Defined.

Lemma star_fails p s (k : string -> option string) :
  all_chars p s = true ->
  (forall c s', p c = true -> k (String c s') = None) ->
  k "" = None ->
  star p s k = None.
Proof.
  intros Hs Hk H0. induction s as [|c s IH]; simpl; [exact H0 |].
  simpl in Hs. apply andb_prop in Hs. destruct Hs as [Hc Hs].
  rewrite Hc, (IH Hs). now apply Hk.
Qed.

Lemma token_pattern_unterminated (s : string) :
  all_chars not_quote s = true -> token_pattern (String dquote s) = None.
Proof.
  intros Hs. unfold token_pattern.
  cbv beta iota delta [token_specification match_alternatives].
  do 13 (match goal with
         | |- match rmatch ?r ?x Some with _ => _ end = _ =>
             change (rmatch r x Some) with (@None string); cbv beta iota
         end).
  assert (E : rmatch (Cat (Cls (Ascii.eqb dquote))
                          (Cat (Star not_quote) (Cls (Ascii.eqb dquote))))
                     (String dquote s) Some = None).
  { cbn [rmatch]. rewrite Ascii.eqb_refl. apply star_fails; [exact Hs | | reflexivity].
    intros c s' Hc. destruct (Ascii.eqb dquote c) eqn:E; [| reflexivity].
    apply Ascii.eqb_eq in E. subst c. discriminate Hc. }
  rewrite E. reflexivity.
Qed.

(** X6.  A string literal that is never closed is no token: its opening
    quote is passed over and the text after it is lexed as program
    text. *)
Theorem lexer_unterminated_string_literal (s : string) :
  all_chars not_quote s = true ->
  lexer (String dquote s) = lexer s.
Proof.
  intros Hs. unfold lexer, finditer.
  now rewrite finditer_from_cons, (token_pattern_unterminated s Hs).
Qed.

Lemma lexer_unterminated_string_literal_witness :
  lexer (String dquote "HI END") = lexer "HI END".
Proof.
  apply (lexer_unterminated_string_literal "HI END"). reflexivity.
Defined.

(* ===================================================================== *)
(** ** Further properties of the parser *)

Lemma reading_panic_mode toks panic out :
  Parser.panic_mode (reading toks panic out) = panic.
Proof. destruct toks; reflexivity. Qed.

Lemma reading_stdout toks panic out :
  Parser.stdout (reading toks panic out) = out.
Proof. destruct toks; reflexivity. Qed.

Lemma reading_pending toks panic out : pending (reading toks panic out) = toks.
Proof. destruct toks; reflexivity. Qed.

Lemma consume_mismatch (expected : string) (tok : Token) lex out :
  type tok <> expected ->
  Parser.consume expected (Parser.mk lex (Some tok) false out)
  = Parser.Return tt
      (reading lex true
         (append out ("Unexpected token '" ++ type tok ++ "' at line "
                      ++ str_of_nat (line_number tok) ++ ". Expected '"
                      ++ expected ++ "'."))).
Proof.
  intros H. apply String.eqb_neq in H.
  unfold Parser.consume, Parser.bind, Parser.get.
  cbn [Parser.panic_mode Parser.current_token]. rewrite H.
  unfold Parser.set_panic_mode, Parser.print.
  cbn [Parser.panic_mode Parser.current_token Parser.lexer Parser.stdout].
  apply advance_reading.
Qed.

(** X7.  [consume] raises in one situation only: in normal mode, at the
    end of the input, when something other than [END] is expected; the
    [SyntaxError] it raises always names line 1.  In every other
    situation it returns. *)
Theorem consume_raises_iff (expected : string) (self : Parser.t) (e : exn) :
  Parser.consume expected self = Parser.Raise e
  <-> (Parser.panic_mode self = false
       /\ Parser.current_token self = None
       /\ expected <> "END"
       /\ e = SyntaxError ("Unexpected end of input at line 1. Expected '"
                           ++ expected ++ "'.")).
Proof.
  split.
  - intros H. destruct (Parser.panic_mode self) eqn:Hp.
    { destruct (consume_panic_Return expected self Hp) as [self' E].
      rewrite E in H. discriminate H. }
    destruct self as [lex [tok|] panic out]; simpl in Hp; subst panic.
    + destruct (String.eqb (type tok) expected) eqn:Hty.
      * apply String.eqb_eq in Hty.
        rewrite (consume_current expected tok lex false out Hty) in H.
        discriminate H.
      * apply String.eqb_neq in Hty.
        rewrite (consume_mismatch expected tok lex out Hty) in H.
        discriminate H.
    + unfold Parser.consume, Parser.bind, Parser.get in H.
      cbn [Parser.panic_mode Parser.current_token] in H.
      destruct (String.eqb expected "END") eqn:He; [discriminate H |].
      apply String.eqb_neq in He. injection H as <-. auto.
  - intros (Hp & Hc & He & ->).
    destruct self as [lex cur panic out]. simpl in Hp, Hc. subst.
    unfold Parser.consume, Parser.bind, Parser.get.
    cbn [Parser.panic_mode Parser.current_token].
    apply String.eqb_neq in He. now rewrite He.
Qed.

Lemma consume_raises_iff_witness :
  Parser.consume "ID" (Parser.mk [] None false [])
  = Parser.Raise
      (SyntaxError ("Unexpected end of input at line 1. Expected '" ++ "ID" ++ "'.")).
Proof.
  apply (proj2 (consume_raises_iff "ID" (Parser.mk [] None false []) _)).
  repeat split. discriminate.
Defined.

Lemma term_cases (self : Parser.t) :
  match Parser.current_token self with
  | None => Parser.term self = Parser.Raise (AttributeError "type")
  | Some tok =>
      if type_in (type tok) Parser.term_start
      then Parser.term self
           = Parser.Return
               (Node "Value" [Tok tok] None)
               (reading (Parser.lexer self) false
                  (List.app (Parser.stdout self)
                     (if Parser.panic_mode self then []
                      else ["Consuming: " ++ type tok])))
      else Parser.term self
           = Parser.Raise (SyntaxError ("Unexpected token: " ++ type tok))
  end.
Proof.
  destruct self as [lex [tok|] panic out];
    cbn [Parser.current_token Parser.lexer Parser.stdout Parser.panic_mode];
    [| reflexivity].
  destruct (type_in (type tok) Parser.term_start) eqn:Hty;
    unfold Parser.term, Parser.bind at 1, Parser.get;
    cbn [Parser.current_token]; rewrite Hty; [| reflexivity].
  now rewrite (bind_step _ _ _ _ _ (consume_current (type tok) tok lex panic out eq_refl)).
Qed.

(** X8.  [term] accepts exactly the four term tokens.  It returns the
    [Value] node holding the current token, takes that token and no
    other, and leaves the parser in normal mode, also when it was entered
    in panic mode.  On any other token it raises [SyntaxError], at the
    end of the input [AttributeError]. *)
Theorem term_spec (self : Parser.t) :
  match Parser.current_token self with
  | None => Parser.term self = Parser.Raise (AttributeError "type")
  | Some tok =>
      if type_in (type tok) Parser.term_start
      then Parser.term self
           = Parser.Return
               (Node "Value" [Tok tok] None)
               (reading (Parser.lexer self) false
                  (List.app (Parser.stdout self)
                     (if Parser.panic_mode self then []
                      else ["Consuming: " ++ type tok])))
      else Parser.term self
           = Parser.Raise (SyntaxError ("Unexpected token: " ++ type tok))
  end.
Proof. exact (term_cases self). Qed.

Example term_leaves_panic_mode :
  Parser.term (Parser.mk [mkToken "TO" "TO" 2 1] (Some (mkToken "INT" "1" 1 1)) true [])
  = Parser.Return (Node "Value" [Tok (mkToken "INT" "1" 1 1)] None)
      (Parser.mk [] (Some (mkToken "TO" "TO" 2 1)) false []).
Proof. reflexivity. Qed.

Lemma program_unfold (fuel : nat) :
  Parser.program fuel
  = (Parser.consume "BEGIN" ;;
     statements_node <- Parser.statement_list fuel ;;
     program_tail statements_node).
Proof. reflexivity. Qed.

Lemma at_type_inv self name :
  Parser.at_type self [name] = true ->
  exists tok, Parser.current_token self = Some tok /\ type tok = name.
Proof.
  unfold Parser.at_type. destruct (Parser.current_token self) as [tok|];
    [| discriminate].
  cbn [type_in existsb]. rewrite orb_false_r. intros H.
  apply String.eqb_eq in H. eauto.
Qed.

Lemma skip_loop_stdout wanted loud (lex : list Token) :
  forall cur out,
    exists lines,
      snd (Parser.skip_loop wanted loud cur lex out) = (out ++ lines)%list.
Proof.
  induction lex as [|t lex IH]; intros [tok|] out; cbn [Parser.skip_loop];
    try (exists []; now rewrite app_nil_r).
  - destruct (wanted (type tok)); [exists []; now rewrite app_nil_r |].
    destruct loud; cbn [snd]; [| exists []; now rewrite app_nil_r].
    eexists. reflexivity.
  - destruct (wanted (type tok)); [exists []; now rewrite app_nil_r |].
    destruct loud.
    + destruct (IH (Some t) (append out ("Skipping: " ++ type tok))) as [lines E].
      rewrite E. unfold append. rewrite <- app_assoc. eexists. reflexivity.
    + apply IH.
Qed.

Lemma skip_until_stdout wanted loud self :
  exists self' lines,
    Parser.skip_until wanted loud self = Parser.Return tt self'
    /\ Parser.panic_mode self' = Parser.panic_mode self
    /\ Parser.stdout self' = (Parser.stdout self ++ lines)%list.
Proof.
  unfold Parser.skip_until.
  destruct (skip_loop_stdout wanted loud (Parser.lexer self)
              (Parser.current_token self) (Parser.stdout self)) as [lines E].
  destruct (Parser.skip_loop wanted loud (Parser.current_token self)
              (Parser.lexer self) (Parser.stdout self)) as [[cur lex] out].
  simpl in E. subst out. eexists. exists lines. repeat split.
Qed.

(** After the statement list [program] cannot fail any more: it returns
    the [Program] node around whatever the statement list built, and
    only adds to what was printed. *)
Lemma program_tail_Return (statements_node : Obj) (self : Parser.t) :
  exists self' lines,
    program_tail statements_node self
    = Parser.Return (Node "Program" [statements_node] None) self'
    /\ Parser.stdout self' = (Parser.stdout self ++ lines)%list.
Proof.
  unfold program_tail.
  destruct (skip_until_stdout (fun ty => type_in ty ["END"; "BEGIN"]) true self)
    as (self1 & l1 & E & _ & Ho1).
  rewrite (bind_step _ _ _ _ _ E). unfold Parser.bind at 1, Parser.get at 1.
  assert (H1 : exists self2 l2,
             (if Parser.at_type self1 ["BEGIN"]
              then Parser.print "Nested 'BEGIN' found. Error recovery may not be complete."
              else Parser.ret tt) self1 = Parser.Return tt self2
             /\ Parser.stdout self2 = (Parser.stdout self1 ++ l2)%list).
  { destruct (Parser.at_type self1 ["BEGIN"]).
    - eexists. eexists. split; reflexivity.
    - exists self1, []. split; [reflexivity | now rewrite app_nil_r]. }
  destruct H1 as (self2 & l2 & E2 & Ho2). rewrite (bind_step _ _ _ _ _ E2).
  unfold Parser.bind at 1, Parser.get at 1.
  assert (H3 : exists self3 l3,
             (if Parser.at_type self2 ["END"]
              then Parser.consume "END"
              else Parser.print "Missing 'END'. Error recovery may not be complete.")
               self2 = Parser.Return tt self3
             /\ Parser.stdout self3 = (Parser.stdout self2 ++ l3)%list).
  { destruct (Parser.at_type self2 ["END"]) eqn:Hat.
    - apply at_type_inv in Hat. destruct Hat as (tok & Hcur & Hty).
      destruct self2 as [lex cur panic out]. simpl in Hcur. subst cur.
      rewrite (consume_current "END" tok lex panic out Hty).
      eexists. eexists. split; [reflexivity |]. now rewrite reading_stdout.
    - eexists. eexists. split; reflexivity. }
  destruct H3 as (self3 & l3 & E3 & Ho3). rewrite (bind_step _ _ _ _ _ E3).
  exists self3, (l1 ++ l2 ++ l3)%list. split; [reflexivity |].
  rewrite Ho3, Ho2, Ho1. now rewrite <- !app_assoc.
Qed.

Lemma statement_list_in_panic (fuel : nat) (node : Obj) (self : Parser.t) :
  Parser.panic_mode self = true ->
  Parser.statement_list_while (S fuel) node self = Parser.Return node self.
Proof.
  intros Hp. cbn [Parser.statement_list_while].
  unfold Parser.bind, Parser.get. now rewrite Hp.
Qed.

(** X9.  When the first token is not [BEGIN], it is dropped with a
    diagnostic, the parser enters panic mode and no statement is parsed
    at all: whatever follows, [parse] returns a [Program] with an empty
    statement list and raises nothing. *)
Theorem parse_without_BEGIN (first : Token) (rest : list Token) :
  type first <> "BEGIN" ->
  exists self',
    parse_tokens (first :: rest)
    = Parser.Return (Node "Program" [Node "Statements" [] None] None) self'
    /\ hd_error (Parser.stdout self') = Some (unexpected first "BEGIN").
Proof.
  intros Hty. unfold parse_tokens, Parser.parse, Parser.init.
  cbn [Parser.lexer Parser.panic_mode Parser.stdout].
  rewrite program_unfold.
  rewrite (bind_step _ _ _ _ _ (consume_mismatch "BEGIN" first rest [] Hty)).
  unfold Parser.statement_list.
  rewrite (bind_step _ _ _ _ _
             (statement_list_in_panic _ _ _ (reading_panic_mode rest true _))).
  fold (unexpected first "BEGIN").
  destruct (program_tail_Return (Node "Statements" [] None)
              (reading rest true (append [] (unexpected first "BEGIN"))))
    as (self' & lines & E & Ho).
  exists self'. split; [exact E |].
  rewrite Ho, reading_stdout. reflexivity.
Qed.

Lemma parse_without_BEGIN_witness :
  exists self',
    parse_tokens (lexer "PRINT 1 END PRINT 2")
    = Parser.Return (Node "Program" [Node "Statements" [] None] None) self'
    /\ hd_error (Parser.stdout self')
       = Some (unexpected (mkToken "PRINT" "PRINT" 1 1) "BEGIN").
Proof.
  apply (parse_without_BEGIN (mkToken "PRINT" "PRINT" 1 1)
           (tl (lexer "PRINT 1 END PRINT 2"))).
  discriminate.
Defined.

Lemma statement_dispatch (fuel : nat) (sl : Parser.M Obj) (tok : Token) lex out :
  Parser.statement fuel sl (Parser.mk lex (Some tok) false out)
  = (if String.eqb (type tok) "PRINT" then
       Parser.consume "PRINT" ;;
       self <- Parser.get ;;
       Parser.consume "STRING_LITERAL" ;;
       Parser.ret (print_statement (obj_of_token (Parser.current_token self)))
     else if type_in (type tok) ["INTEGER"; "REAL"; "STRING"] then
       var_declaration_node <- Parser.var_declaration fuel ;;
       Parser.ret (Node "VarDeclaration" [var_declaration_node] None)
     else if String.eqb (type tok) "ID" then
       assignment_node <- Parser.assignment fuel ;;
       Parser.ret (Node "Assignment" [assignment_node] None)
     else if String.eqb (type tok) "FOR" then
       r <- Parser.for_loop sl ;;
       match r with
       | (for_loop_node, start_value, end_value) =>
           Parser.ret (Node ("START : " ++ fmt start_value ++ newline
                             ++ "END : " ++ fmt end_value)
                            [for_loop_node] None)
       end
     else Parser.raise (SyntaxError ("Unexpected token: " ++ type tok)))
      (Parser.mk lex (Some tok) false out).
Proof. reflexivity. Qed.

Lemma statement_PRINT_cases (fuel : nat) (sl : Parser.M Obj)
        (p tok : Token) (rest : list Token) (out : list string) :
  type p = "PRINT" ->
  Parser.statement fuel sl (reading (p :: tok :: rest) false out)
  = Parser.Return
      (print_statement (Tok tok))
      (if String.eqb (type tok) "STRING_LITERAL"
       then reading rest false
              (append (append out "Consuming: PRINT") "Consuming: STRING_LITERAL")
       else reading rest true
              (append (append out "Consuming: PRINT")
                      (unexpected tok "STRING_LITERAL")))
  /\ Parser.statement fuel sl (reading [p] false out)
     = Parser.Raise
         (SyntaxError "Unexpected end of input at line 1. Expected 'STRING_LITERAL'.").
Proof.
  intros Hp. cbn [reading]. rewrite !statement_dispatch, Hp.
  cbn [String.eqb Ascii.eqb Bool.eqb].
  rewrite !(bind_step _ _ _ _ _ (consume_step "PRINT" p _ out Hp)).
  split.
  - cbn [reading]. unfold Parser.bind at 1, Parser.get at 1.
    cbn [Parser.current_token obj_of_token].
    destruct (String.eqb (type tok) "STRING_LITERAL") eqn:Hty.
    + apply String.eqb_eq in Hty.
      now rewrite (bind_step _ _ _ _ _ (consume_step "STRING_LITERAL" tok _ _ Hty)).
    + apply String.eqb_neq in Hty.
      now rewrite (bind_step _ _ _ _ _ (consume_mismatch "STRING_LITERAL" tok _ _ Hty)).
  - reflexivity.
Qed.

(** X10.  [PRINT] takes whatever token follows it as its payload.  A
    string literal is consumed normally; any other token is stored in
    the tree all the same, dropped from the input, and the parser enters
    panic mode.  With nothing after [PRINT] the statement raises
    [SyntaxError]. *)
Theorem statement_PRINT (fuel : nat) (sl : Parser.M Obj)
        (p tok : Token) (rest : list Token) (out : list string) :
  type p = "PRINT" ->
  Parser.statement fuel sl (reading (p :: tok :: rest) false out)
  = Parser.Return
      (print_statement (Tok tok))
      (if String.eqb (type tok) "STRING_LITERAL"
       then reading rest false
              (append (append out "Consuming: PRINT") "Consuming: STRING_LITERAL")
       else reading rest true
              (append (append out "Consuming: PRINT")
                      (unexpected tok "STRING_LITERAL")))
  /\ Parser.statement fuel sl (reading [p] false out)
     = Parser.Raise
         (SyntaxError "Unexpected end of input at line 1. Expected 'STRING_LITERAL'.").
Proof. exact (statement_PRINT_cases fuel sl p tok rest out). Qed.

Lemma statement_PRINT_witness :
  Parser.statement 0 (Parser.ret PyNone)
    (reading [mkToken "PRINT" "PRINT" 1 1; mkToken "INT" "3" 3 1;
              mkToken "END" "END" 5 1] false [])
  = Parser.Return
      (print_statement (Tok (mkToken "INT" "3" 3 1)))
      (if String.eqb (type (mkToken "INT" "3" 3 1)) "STRING_LITERAL"
       then reading [mkToken "END" "END" 5 1] false
              (append (append [] "Consuming: PRINT") "Consuming: STRING_LITERAL")
       else reading [mkToken "END" "END" 5 1] true
              (append (append [] "Consuming: PRINT")
                      (unexpected (mkToken "INT" "3" 3 1) "STRING_LITERAL")))
  /\ Parser.statement 0 (Parser.ret PyNone)
       (reading [mkToken "PRINT" "PRINT" 1 1] false [])
     = Parser.Raise
         (SyntaxError "Unexpected end of input at line 1. Expected 'STRING_LITERAL'.").
Proof.
  apply (statement_PRINT 0 (Parser.ret PyNone) (mkToken "PRINT" "PRINT" 1 1)
           (mkToken "INT" "3" 3 1) [mkToken "END" "END" 5 1] []).
  reflexivity.
Defined.

Lemma statement_list_step (fuel : nat) (node : Obj) (tok : Token) lex out :
  type_in (type tok) Parser.statement_start = true ->
  Parser.statement_list_while (S fuel) node (Parser.mk lex (Some tok) false out)
  = (statement_node <-
       Parser.statement fuel
         (Parser.statement_list_while fuel (Node "Statements" [] None)) ;;
     Parser.statement_list_while fuel (add_child node statement_node))
      (Parser.mk lex (Some tok) false out).
Proof.
  intros H. cbn [Parser.statement_list_while].
  unfold Parser.bind at 1, Parser.get at 1, Parser.at_type.
  cbn [Parser.panic_mode Parser.current_token negb andb]. now rewrite H.
Qed.



(** *** Assignments *)

Lemma term_reading (tm : Token) lex out :
  type_in (type tm) Parser.term_start = true ->
  Parser.term (Parser.mk lex (Some tm) false out)
  = Parser.Return (Node "Value" [Tok tm] None)
      (reading lex false (append out ("Consuming: " ++ type tm))).
Proof.
  intros H. pose proof (term_cases (Parser.mk lex (Some tm) false out)) as E.
  cbn [Parser.current_token Parser.lexer Parser.stdout Parser.panic_mode] in E.
  now rewrite H in E.
Qed.

Lemma expression_reading (tm : Token) lex out :
  type_in (type tm) Parser.term_start = true ->
  not_arithmetic lex ->
  Parser.expression (Parser.mk lex (Some tm) false out)
  = Parser.Return (Node "Value" [Tok tm] None)
      (reading lex false (append out ("Consuming: " ++ type tm))).
Proof.
  intros H Hlex. unfold Parser.expression.
  rewrite (bind_step _ _ _ _ _ (term_reading tm lex out H)).
  unfold Parser.bind, Parser.get. destruct lex as [|t lex]; [reflexivity |].
  cbn [reading Parser.current_token Parser.panic_mode].
  cbn [not_arithmetic] in Hlex. unfold arithmetic_symbols in Hlex.
  now rewrite Hlex.
Qed.

Lemma chain_not_arithmetic chain tail :
  Forall well_formed_assignment chain ->
  stops_chain tail ->
  not_arithmetic (chain_tokens chain ++ tail)%list.
Proof.
  intros Hc Ht. destruct Hc as [|[[n a] e] chain [Hn _] _].
  - destruct tail; [exact I | apply Ht].
  - simpl in Hn |- *. now rewrite Hn.
Qed.

Lemma assignment_while_chain tail (chain : list (Token * Token * Token)) :
  Forall well_formed_assignment chain ->
  stops_chain tail ->
  forall fuel nodes out,
    length chain < fuel ->
    Parser.assignment_while fuel nodes
      (reading (chain_tokens chain ++ tail)%list false out)
    = Parser.Return (nodes ++ chain_nodes chain)%list
        (reading tail false (out ++ chain_log chain)%list).
Proof.
  intros Hchain Htail.
  induction Hchain as [|[[n a] e] chain (Hn & Ha & He) Hchain IH];
    intros fuel nodes out Hfuel;
    (destruct fuel as [|fuel]; [inversion Hfuel |]).
  - cbn [chain_tokens chain_nodes chain_log flat_map map List.app
         Parser.assignment_while].
    rewrite !app_nil_r. unfold Parser.bind, Parser.get.
    destruct tail as [|t tail]; [reflexivity |].
    cbn [reading Parser.current_token Parser.panic_mode negb andb].
    destruct Htail as [Hid _]. apply String.eqb_neq in Hid. now rewrite Hid.
  - simpl in Hfuel, Hn, Ha, He.
    cbn [chain_tokens chain_nodes chain_log flat_map map List.app fst snd
         Parser.assignment_while reading].
    fold (chain_tokens chain). fold (chain_nodes chain). fold (chain_log chain).
    unfold Parser.bind at 1, Parser.get at 1.
    cbn [Parser.current_token Parser.panic_mode negb andb]. rewrite Hn.
    cbn [String.eqb Ascii.eqb Bool.eqb].
    rewrite (bind_step _ _ _ _ _ (consume_step "ID" n _ out Hn)).
    unfold Parser.bind at 1, Parser.get at 1. cbn [reading Parser.current_token].
    rewrite Ha. cbn [String.eqb Ascii.eqb Bool.eqb].
    rewrite (bind_step _ _ _
               (Node "Value" [Tok e] None)
               (reading (chain_tokens chain ++ tail)%list false
                  (append (append (append out "Consuming: ID") "Consuming: ASSIGN")
                          ("Consuming: " ++ type e)))).
    + rewrite IH by lia. unfold append, assignment_node. cbn [add_child].
      unfold append. now rewrite <- !app_assoc.
    + rewrite (bind_step _ _ _ _ _ (consume_step "ASSIGN" a _ _ Ha)).
      cbn [reading].
      apply expression_reading; [exact He |].
      now apply chain_not_arithmetic.
Qed.

(** X12.  [assignment] is greedy: a run of assignments [name := term],
    ended by the end of the input or by a token that is not an
    identifier, gives one [Assignments] node with one [Assignment] node
    per assignment, in order, each holding the variable leaf, the
    [Value] node of the term and the [Value] node of the name token. *)
Theorem assignment_chain (fuel : nat) (chain : list (Token * Token * Token))
        (tail : list Token) (out : list string) :
  Forall well_formed_assignment chain ->
  stops_chain tail ->
  length chain < fuel ->
  Parser.assignment fuel (reading (chain_tokens chain ++ tail)%list false out)
  = Parser.Return
      (Node "Assignments" (chain_nodes chain) None)
      (reading tail false (out ++ chain_log chain)%list).
Proof.
  intros Hchain Htail Hfuel. unfold Parser.assignment.
  now rewrite (bind_step _ _ _ _ _
                 (assignment_while_chain tail chain Hchain Htail fuel [] out Hfuel)).
Qed.

Lemma assignment_chain_witness :
  Parser.assignment 3
    (reading (chain_tokens
                [(mkToken "ID" "A" 1 1, mkToken "ASSIGN" ":=" 2 1, mkToken "INT" "2" 3 1);
                 (mkToken "ID" "B" 4 1, mkToken "ASSIGN" ":=" 5 1, mkToken "ID" "A" 6 1)]
              ++ [mkToken "END" "END" 7 1])%list false [])
  = Parser.Return
      (Node "Assignments"
         (chain_nodes
            [(mkToken "ID" "A" 1 1, mkToken "ASSIGN" ":=" 2 1, mkToken "INT" "2" 3 1);
             (mkToken "ID" "B" 4 1, mkToken "ASSIGN" ":=" 5 1, mkToken "ID" "A" 6 1)])
         None)
      (reading [mkToken "END" "END" 7 1] false
         ([] ++ chain_log
            [(mkToken "ID" "A" 1 1, mkToken "ASSIGN" ":=" 2 1, mkToken "INT" "2" 3 1);
             (mkToken "ID" "B" 4 1, mkToken "ASSIGN" ":=" 5 1, mkToken "ID" "A" 6 1)])%list).
Proof.
  apply (assignment_chain 3
           [(mkToken "ID" "A" 1 1, mkToken "ASSIGN" ":=" 2 1, mkToken "INT" "2" 3 1);
            (mkToken "ID" "B" 4 1, mkToken "ASSIGN" ":=" 5 1, mkToken "ID" "A" 6 1)]
           [mkToken "END" "END" 7 1] []).
  - repeat constructor.
  - split; [discriminate | reflexivity].
  - simpl. lia.
Defined.

Lemma assignment_bare_identifier (fuel : nat)
      (name next : Token) (rest : list Token) (out : list string) :
  type name = "ID" ->
  type next <> "ASSIGN" ->
  type next <> "ID" ->
  Parser.assignment (S (S fuel)) (Parser.mk (next :: rest) (Some name) false out)
  = Parser.Return
      (Node "Assignments" [assignment_node name PyNone] None)
      (reading (next :: rest) false (append out "Consuming: ID")).
Proof.
  intros Hn Ha Hid. apply String.eqb_neq in Ha. apply String.eqb_neq in Hid.
  unfold Parser.assignment.
  rewrite (bind_step _ _ _ [assignment_node name PyNone]
             (reading (next :: rest) false (append out "Consuming: ID")));
    [reflexivity |].
  cbn [Parser.assignment_while].
  unfold Parser.bind at 1, Parser.get at 1.
  cbn [Parser.current_token Parser.panic_mode negb andb].
  rewrite (proj2 (String.eqb_eq _ _) Hn).
  rewrite (bind_step _ _ _ _ _ (consume_step "ID" name _ out Hn)).
  unfold Parser.bind at 1, Parser.get at 1. cbn [reading Parser.current_token].
  rewrite Ha. unfold Parser.bind at 1, Parser.ret at 1.
  unfold Parser.bind at 1, Parser.get at 1.
  cbn [Parser.current_token Parser.panic_mode negb andb]. rewrite Hid.
  reflexivity.
Qed.

(** X13.  A bare identifier is a statement: followed by a token that is
    neither [:=] nor an identifier, it is accepted without a diagnostic,
    in normal mode, as an assignment whose expression is [None]. *)
Theorem statement_bare_identifier (fuel : nat) (sl : Parser.M Obj)
        (name next : Token) (rest : list Token) (out : list string) :
  type name = "ID" ->
  type next <> "ASSIGN" ->
  type next <> "ID" ->
  Parser.statement (S (S fuel)) sl (reading (name :: next :: rest) false out)
  = Parser.Return
      (Node "Assignment"
            [Node "Assignments" [assignment_node name PyNone] None] None)
      (reading (next :: rest) false (append out "Consuming: ID")).
Proof.
  intros Hn Ha Hid. cbn [reading]. rewrite statement_dispatch, Hn.
  cbn [String.eqb Ascii.eqb Bool.eqb type_in existsb orb].
  now rewrite (bind_step _ _ _ _ _
                 (assignment_bare_identifier fuel name next rest out Hn Ha Hid)).
Qed.

Lemma statement_bare_identifier_witness :
  Parser.statement 2 (Parser.ret PyNone)
    (reading [mkToken "ID" "A" 1 1; mkToken "END" "END" 3 1] false [])
  = Parser.Return
      (Node "Assignment"
            [Node "Assignments" [assignment_node (mkToken "ID" "A" 1 1) PyNone] None]
            None)
      (reading [mkToken "END" "END" 3 1] false (append [] "Consuming: ID")).
Proof.
  apply (statement_bare_identifier 0 (Parser.ret PyNone)
           (mkToken "ID" "A" 1 1) (mkToken "END" "END" 3 1) [] []);
    [reflexivity | discriminate | discriminate].
Defined.

(** *** Declarations at the end of the input *)

Lemma var_declaration_while_exhausted (var_type : string)
      (more : list (Token * Token)) :
  Forall well_typed_pair more ->
  forall fuel var_nodes out,
    length more < fuel ->
    Parser.var_declaration_while fuel var_type var_nodes
      (reading (comma_names more) false out)
    = Parser.Raise (AttributeError "type").
Proof.
  intros Hmore. induction Hmore as [|[comma name] more [Hc Hn] Hmore IH];
    intros fuel var_nodes out Hfuel;
    (destruct fuel as [|fuel]; [inversion Hfuel |]).
  - reflexivity.
  - simpl in Hfuel, Hc, Hn.
    cbn [comma_names flat_map List.app fst snd Parser.var_declaration_while reading].
    fold (comma_names more).
    unfold Parser.bind at 1, Parser.get at 1.
    cbn [Parser.current_token]. rewrite Hc. cbn [String.eqb Ascii.eqb Bool.eqb].
    rewrite (bind_step _ _ _ _ _ (consume_step "COMMA" comma _ out Hc)).
    unfold Parser.bind at 1, Parser.get at 1. cbn [reading Parser.current_token].
    rewrite (bind_step _ _ _ _ _ (consume_step "ID" name _ _ Hn)).
    apply IH. lia.
Qed.

Lemma length_comma_names more : length (comma_names more) = 2 * length more.
Proof.
  induction more as [|p more IH]; [reflexivity |].
  cbn [comma_names flat_map List.app length]. fold (comma_names more). lia.
Qed.

Lemma type_keyword_cases (ty : string) :
  type_in ty ["INTEGER"; "REAL"; "STRING"] = true ->
  ty = "INTEGER" \/ ty = "REAL" \/ ty = "STRING".
Proof.
  cbn [type_in existsb]. rewrite !orb_true_iff, !String.eqb_eq.
  intros [H | [H | [H | H]]]; auto. discriminate H.
Qed.

(** X14.  A declaration that ends the input is not recovered and not
    reported as a syntax error: looking for a comma after the last name,
    the parser reads the type of a token that is not there, and [parse]
    raises [AttributeError]. *)
Theorem parse_declaration_at_end_of_input
        (b var_type name : Token) (more : list (Token * Token)) :
  type b = "BEGIN" ->
  type_in (type var_type) ["INTEGER"; "REAL"; "STRING"] = true ->
  type name = "ID" ->
  Forall well_typed_pair more ->
  parse_tokens (b :: var_type :: name :: comma_names more)
  = Parser.Raise (AttributeError "type").
Proof.
  intros Hb Hty Hname Hmore. unfold parse_tokens, Parser.parse, Parser.init.
  cbn [Parser.lexer Parser.panic_mode Parser.stdout length].
  rewrite program_unfold.
  rewrite (bind_step _ _ _ _ _ (consume_step "BEGIN" b _ [] Hb)).
  unfold Parser.statement_list. cbn [reading].
  assert (Hstart : type_in (type var_type) Parser.statement_start = true).
  { destruct (type_keyword_cases _ Hty) as [-> | [-> | ->]]; reflexivity. }
  unfold Parser.bind at 1. rewrite (statement_list_step _ _ _ _ _ Hstart).
  unfold Parser.bind at 1. rewrite statement_dispatch.
  assert (Hprint : String.eqb (type var_type) "PRINT" = false).
  { destruct (type_keyword_cases _ Hty) as [-> | [-> | ->]]; reflexivity. }
  rewrite Hprint, Hty.
  unfold Parser.bind at 1, Parser.var_declaration.
  unfold Parser.bind at 1, Parser.get at 1. cbn [Parser.current_token].
  rewrite (bind_step _ _ _ _ _
             (consume_step (type var_type) var_type _ _ eq_refl)).
  unfold Parser.bind at 1, Parser.get at 1. cbn [reading Parser.current_token].
  rewrite (bind_step _ _ _ _ _ (consume_step "ID" name _ _ Hname)).
  unfold Parser.bind at 1.
  rewrite (var_declaration_while_exhausted (type var_type) more Hmore);
    [reflexivity |].
  rewrite length_comma_names. lia.
Qed.

Lemma parse_declaration_at_end_of_input_witness :
  parse_tokens
    (mkToken "BEGIN" "BEGIN" 1 1 :: mkToken "REAL" "REAL" 3 1
     :: mkToken "ID" "D" 5 1
     :: comma_names [(mkToken "COMMA" "," 6 1, mkToken "ID" "E" 8 1)])
  = Parser.Raise (AttributeError "type").
Proof.
  apply (parse_declaration_at_end_of_input
           (mkToken "BEGIN" "BEGIN" 1 1) (mkToken "REAL" "REAL" 3 1)
           (mkToken "ID" "D" 5 1)
           [(mkToken "COMMA" "," 6 1, mkToken "ID" "E" 8 1)]);
    [reflexivity | reflexivity | reflexivity | repeat constructor].
Defined.

(** *** The header of a [FOR] loop *)

(** X15.  On a well-formed header [FOR name := term TO term], [for_loop]
    reads the six tokens, runs the statement list on what follows and
    then consumes an [END].  The bounds it hands back for the label of
    the statement are the text of the name after [FOR], not of the start
    term, and the text of the token after [TO]. *)
Theorem for_loop_header (sl : Parser.M Obj) (f name asg t1 to t2 : Token)
        (rest : list Token) (out : list string) :
  type f = "FOR" ->
  type name = "ID" ->
  type asg = "ASSIGN" ->
  type_in (type t1) Parser.term_start = true ->
  type to = "TO" ->
  type_in (type t2) Parser.term_start = true ->
  not_arithmetic rest ->
  Parser.for_loop sl (reading (for_header f name asg t1 to t2 ++ rest)%list false out)
  = (statements_node <- sl ;;
     Parser.consume "END" ;;
     Parser.ret (Node "ForLoop" [statements_node] None,
                 Some (value name), Some (value t2)))
      (reading rest false (out ++ for_header_log t1 t2)%list).
Proof.
  intros Hf Hname Hasg Ht1 Hto Ht2 Hrest.
  unfold Parser.for_loop, for_header, for_header_log. cbn [List.app reading].
  rewrite (bind_step _ _ _ _ _ (consume_step "FOR" f _ out Hf)).
  unfold Parser.bind at 1, Parser.get at 1.
  cbn [reading Parser.panic_mode Parser.current_token]. rewrite Hname.
  cbn [String.eqb Ascii.eqb Bool.eqb].
  rewrite (bind_step _ _ _ _ _ (consume_step "ID" name _ _ Hname)). cbn [reading].
  rewrite (bind_step _ _ _ _ _ (consume_step "ASSIGN" asg _ _ Hasg)). cbn [reading].
  assert (Hto' : not_arithmetic (to :: t2 :: rest)).
  { cbn [not_arithmetic]. now rewrite Hto. }
  rewrite (bind_step _ _ _ _ _ (expression_reading t1 _ _ Ht1 Hto')). cbn [reading].
  rewrite (bind_step _ _ _ _ _ (consume_step "TO" to _ _ Hto)). cbn [reading].
  unfold Parser.bind at 1, Parser.get at 1. cbn [Parser.current_token].
  rewrite (bind_step _ _ _ _ _ (expression_reading t2 _ _ Ht2 Hrest)).
  unfold append. now rewrite <- !app_assoc.
Qed.

Lemma for_loop_header_witness :
  Parser.for_loop (Parser.statement_list 3)
    (reading (for_header (mkToken "FOR" "FOR" 1 1) (mkToken "ID" "I" 2 1)
                (mkToken "ASSIGN" ":=" 3 1) (mkToken "INT" "1" 4 1)
                (mkToken "TO" "TO" 5 1) (mkToken "INT" "5" 6 1)
              ++ [mkToken "END" "END" 7 1])%list false [])
  = (statements_node <- Parser.statement_list 3 ;;
     Parser.consume "END" ;;
     Parser.ret (Node "ForLoop" [statements_node] None,
                 Some (value (mkToken "ID" "I" 2 1)),
                 Some (value (mkToken "INT" "5" 6 1))))
      (reading [mkToken "END" "END" 7 1] false
         ([] ++ for_header_log (mkToken "INT" "1" 4 1) (mkToken "INT" "5" 6 1))%list).
Proof.
  apply (for_loop_header (Parser.statement_list 3)
           (mkToken "FOR" "FOR" 1 1) (mkToken "ID" "I" 2 1)
           (mkToken "ASSIGN" ":=" 3 1) (mkToken "INT" "1" 4 1)
           (mkToken "TO" "TO" 5 1) (mkToken "INT" "5" 6 1)
           [mkToken "END" "END" 7 1] []); reflexivity.
Defined.

(** The [END] after the body of a [FOR] closes the loop: a program whose
    only [END] follows a loop is reported as missing its own. *)
Example parse_FOR_takes_the_END :
  parse_source "BEGIN FOR I := 1 TO 5 END"
  = Parser.Return
      (Node "Program"
         [Node "Statements"
            [Node ("START : I" ++ newline ++ "END : 5")
               [Node "ForLoop" [Node "Statements" [] None] None] None]
            None]
         None)
      (Parser.mk [] None false
         ["Consuming: BEGIN"; "Consuming: FOR"; "Consuming: ID";
          "Consuming: ASSIGN"; "Consuming: INT"; "Consuming: TO";
          "Consuming: INT"; "Consuming: END";
          "Missing 'END'. Error recovery may not be complete."]).
Proof. reflexivity. Qed.

(** *** What [parse] does not raise *)

Lemma tame_bind {A B} (c : Parser.M A) (k : A -> Parser.M B) self :
  tame c self ->
  (forall a self', c self = Parser.Return a self' -> tame (k a) self') ->
  tame (Parser.bind c k) self.
Proof.
  unfold tame at 1 3, Parser.bind. intros Hc Hk Hclean. specialize (Hc Hclean).
  destruct (c self) as [a self'| |]; auto. exact (Hk a self' eq_refl Hc).
Qed.

Lemma tame_get {B} (k : Parser.t -> Parser.M B) self :
  tame (k self) self -> tame (Parser.bind Parser.get k) self.
Proof. auto. Qed.

Lemma tame_ret {A} (a : A) self : tame (Parser.ret a) self.
Proof. intros H. exact H. Qed.

Lemma tame_raise {A} e self : parser_error e -> tame (@Parser.raise A e) self.
Proof. intros H _. exact H. Qed.

Lemma tame_print line self : tame (Parser.print line) self.
Proof. intros H. exact H. Qed.

Lemma tame_set_panic_mode b self : tame (Parser.set_panic_mode b) self.
Proof. intros H. exact H. Qed.

Lemma tame_advance self : tame Parser.advance self.
Proof.
  unfold tame, clean, pending.
  destruct self as [[|t lex] [tok|] panic out]; simpl; intros H; auto;
    now inversion H.
Qed.

Lemma skip_loop_clean (P : Token -> Prop) wanted loud (lex : list Token) :
  forall tok out cur' lex' out',
    Parser.skip_loop wanted loud (Some tok) lex out = (cur', lex', out') ->
    Forall P (tok :: lex) ->
    Forall P (match cur' with Some t => t :: lex' | None => lex' end).
Proof.
  induction lex as [|t lex IH]; intros tok out cur' lex' out';
    cbn [Parser.skip_loop].
  - destruct (wanted (type tok)); intros [= <- <- <-]; auto.
  - destruct (wanted (type tok)); [intros [= <- <- <-]; auto |].
    intros H HP. apply (IH _ _ _ _ _ H). now inversion HP.
Qed.

Lemma tame_skip_until wanted loud self : tame (Parser.skip_until wanted loud) self.
Proof.
  unfold tame, clean, pending, Parser.skip_until.
  destruct self as [lex [tok|] panic out];
    cbn [Parser.current_token Parser.lexer Parser.stdout Parser.panic_mode].
  - destruct (Parser.skip_loop wanted loud (Some tok) lex out)
      as [[cur' lex'] out'] eqn:E.
    cbn [Parser.current_token Parser.lexer]. now apply (skip_loop_clean _ _ _ _ _ _ _ _ _ E).
  - destruct lex; simpl; auto.
Qed.

Lemma tame_consume expected self : tame (Parser.consume expected) self.
Proof.
  unfold Parser.consume. apply tame_get.
  destruct (Parser.panic_mode self).
  - apply tame_bind; [apply tame_skip_until |]. intros _ self1 _.
    apply tame_get.
    destruct (Parser.current_token self1) as [tok|]; [| apply tame_advance].
    destruct (String.eqb (type tok) expected); [| apply tame_advance].
    apply tame_bind; [apply tame_set_panic_mode |]. intros. apply tame_advance.
  - destruct (Parser.current_token self) as [tok|].
    + destruct (String.eqb (type tok) expected).
      * apply tame_bind; [apply tame_print |]. intros. apply tame_advance.
      * apply tame_bind; [apply tame_set_panic_mode |]. intros.
        apply tame_bind; [apply tame_print |]. intros. apply tame_advance.
    + destruct (String.eqb expected "END");
        [apply tame_ret | now apply tame_raise].
Qed.

Lemma tame_term self : tame Parser.term self.
Proof.
  unfold Parser.term. apply tame_get.
  destruct (Parser.current_token self) as [tok|]; [| now apply tame_raise].
  destruct (type_in (type tok) Parser.term_start); [| now apply tame_raise].
  apply tame_bind; [apply tame_consume |]. intros. apply tame_ret.
Qed.

Lemma clean_lexer self :
  clean self ->
  Forall (fun t => type_in (type t) arithmetic_symbols = false) (Parser.lexer self).
Proof.
  unfold clean, pending. destruct (Parser.current_token self); [| auto].
  intros H. now inversion H.
Qed.

(** In a clean state the fold of [expression] is out of reach, and with
    it the [TypeError] at its end. *)
Lemma tame_expression self : tame Parser.expression self.
Proof.
  intros Hclean. rewrite (expression_is_term self (clean_lexer self Hclean)).
  now apply tame_term.
Qed.

Lemma tame_var_declaration_while (fuel : nat) :
  forall var_type var_nodes self,
    tame (Parser.var_declaration_while fuel var_type var_nodes) self.
Proof.
  induction fuel as [|fuel IH]; intros var_type var_nodes self; [intros _; exact I |].
  cbn [Parser.var_declaration_while]. apply tame_get.
  destruct (Parser.current_token self) as [tok|]; [| now apply tame_raise].
  destruct (String.eqb (type tok) "COMMA"); [| apply tame_ret].
  apply tame_bind; [apply tame_consume |]. intros _ self1 _. apply tame_get.
  destruct (Parser.current_token self1) as [name|]; [| now apply tame_raise].
  apply tame_bind; [apply tame_consume |]. intros. apply IH.
Qed.

Lemma tame_var_declaration (fuel : nat) self :
  tame (Parser.var_declaration fuel) self.
Proof.
  unfold Parser.var_declaration. apply tame_get.
  destruct (Parser.current_token self) as [tok|]; [| now apply tame_raise].
  apply tame_bind; [apply tame_consume |]. intros _ self1 _. apply tame_get.
  destruct (Parser.current_token self1) as [name|]; [| now apply tame_raise].
  apply tame_bind; [apply tame_consume |]. intros.
  apply tame_bind; [apply tame_var_declaration_while |]. intros. apply tame_ret.
Qed.

Lemma tame_assignment_while (fuel : nat) :
  forall nodes self, tame (Parser.assignment_while fuel nodes) self.
Proof.
  induction fuel as [|fuel IH]; intros nodes self; [intros _; exact I |].
  cbn [Parser.assignment_while]. apply tame_get.
  destruct (Parser.current_token self) as [variable_token|]; [| apply tame_ret].
  destruct (negb (Parser.panic_mode self) && String.eqb (type variable_token) "ID");
    [| apply tame_ret].
  apply tame_bind; [apply tame_consume |]. intros _ self1 _. apply tame_get.
  destruct (Parser.current_token self1) as [tok|]; [| now apply tame_raise].
  apply tame_bind.
  - destruct (String.eqb (type tok) "ASSIGN"); [| apply tame_ret].
    apply tame_bind; [apply tame_consume |]. intros. apply tame_expression.
  - intros. apply IH.
Qed.

Lemma tame_for_loop (sl : Parser.M Obj) self :
  (forall self', tame sl self') -> tame (Parser.for_loop sl) self.
Proof.
  intros Hsl. unfold Parser.for_loop.
  apply tame_bind; [apply tame_consume |]. intros _ self1 _. apply tame_get.
  assert (Hrec : tame recovery_for_loop self1).
  { unfold recovery_for_loop. apply tame_bind; [apply tame_skip_until |].
    intros. apply tame_ret. }
  destruct (Parser.panic_mode self1); [exact Hrec |].
  destruct (Parser.current_token self1) as [start_val_token|];
    [| now apply tame_raise].
  destruct (String.eqb (type start_val_token) "ID"); [| exact Hrec].
  apply tame_bind; [apply tame_consume |]. intros.
  apply tame_bind; [apply tame_consume |]. intros.
  apply tame_bind; [apply tame_expression |]. intros.
  apply tame_bind; [apply tame_consume |]. intros _ self5 _. apply tame_get.
  destruct (Parser.current_token self5) as [end_val_token|];
    [| now apply tame_raise].
  apply tame_bind; [apply tame_expression |]. intros.
  apply tame_bind; [apply Hsl |]. intros.
  apply tame_bind; [apply tame_consume |]. intros. apply tame_ret.
Qed.

Lemma tame_statement (fuel : nat) (sl : Parser.M Obj) self :
  (forall self', tame sl self') -> tame (Parser.statement fuel sl) self.
Proof.
  intros Hsl. unfold Parser.statement. apply tame_get.
  destruct (Parser.panic_mode self).
  { apply tame_bind; [apply tame_skip_until |]. intros. apply tame_ret. }
  destruct (Parser.current_token self) as [tok|]; [| now apply tame_raise].
  destruct (String.eqb (type tok) "PRINT").
  { apply tame_bind; [apply tame_consume |]. intros _ self1 _. apply tame_get.
    apply tame_bind; [apply tame_consume |]. intros. apply tame_ret. }
  destruct (type_in (type tok) ["INTEGER"; "REAL"; "STRING"]).
  { apply tame_bind; [apply tame_var_declaration |]. intros. apply tame_ret. }
  destruct (String.eqb (type tok) "ID").
  { unfold Parser.assignment.
    apply tame_bind; [| intros; apply tame_ret].
    apply tame_bind; [apply tame_assignment_while |]. intros. apply tame_ret. }
  destruct (String.eqb (type tok) "FOR"); [| now apply tame_raise].
  apply tame_bind; [now apply tame_for_loop |].
  intros [[for_loop_node start_value] end_value] self1 _. apply tame_ret.
Qed.

Lemma tame_statement_list_while (fuel : nat) :
  forall node self, tame (Parser.statement_list_while fuel node) self.
Proof.
  induction fuel as [|fuel IH]; intros node self; [intros _; exact I |].
  cbn [Parser.statement_list_while]. apply tame_get.
  destruct (negb (Parser.panic_mode self)
            && Parser.at_type self Parser.statement_start); [| apply tame_ret].
  apply tame_bind; [apply tame_statement; intros; apply IH |].
  intros. apply IH.
Qed.

Lemma tame_program (fuel : nat) self : tame (Parser.program fuel) self.
Proof.
  unfold Parser.program, Parser.statement_list.
  apply tame_bind; [apply tame_consume |]. intros.
  apply tame_bind; [apply tame_statement_list_while |]. intros.
  apply tame_bind; [apply tame_skip_until |]. intros _ self3 _. apply tame_get.
  apply tame_bind.
  { destruct (Parser.at_type self3 ["BEGIN"]); [apply tame_print | apply tame_ret]. }
  intros _ self4 _. apply tame_get.
  apply tame_bind.
  { destruct (Parser.at_type self4 ["END"]); [apply tame_consume | apply tame_print]. }
  intros. apply tame_ret.
Qed.

Lemma parse_tokens_exceptions (toks : list Token) (e : exn) :
  Forall (fun t => type_in (type t) arithmetic_symbols = false) toks ->
  parse_tokens toks = Parser.Raise e ->
  match e with
  | StopIteration => toks = []
  | SyntaxError _ | AttributeError _ => toks <> []
  | TypeError _ => False
  end.
Proof.
  intros Hclean. unfold parse_tokens, Parser.parse, Parser.init.
  cbn [Parser.lexer Parser.panic_mode Parser.stdout].
  destruct toks as [|tok rest]; [now intros [= <-] |].
  intros H.
  pose proof (tame_program (S (length (tok :: rest)))
                (Parser.mk rest (Some tok) false []) Hclean) as Ht.
  rewrite H in Ht. destruct e; try contradiction; discriminate.
Qed.

(** X16.  On the tokens of a source text [parse] never raises the
    [TypeError] that waits at the end of the fold of [expression]: that
    line is out of reach.  And it raises [StopIteration] only when the
    source holds no token at all. *)
Theorem parse_source_never_TypeError (input_code : string) (e : exn) :
  parse_source input_code = Parser.Raise e ->
  match e with
  | TypeError _ => False
  | StopIteration => lexer input_code = []
  | SyntaxError _ | AttributeError _ => True
  end.
Proof.
  intros H.
  pose proof (parse_tokens_exceptions (lexer input_code) e
                (lexer_not_arithmetic input_code) H) as Hx.
  destruct e; auto.
Qed.

Lemma parse_source_never_TypeError_witness : lexer "$" = [].
Proof.
  apply (parse_source_never_TypeError "$" StopIteration). reflexivity.
Defined.

(* ===================================================================== *)
(** ** The end of the program and the shape of declarations *)

(** *** The generator invariant is kept by every method *)

Lemma keeps_bind {A B} (c : Parser.M A) (k : A -> Parser.M B) self :
  keeps c self ->
  (forall a self', c self = Parser.Return a self' -> keeps (k a) self') ->
  keeps (Parser.bind c k) self.
Proof.
  unfold keeps at 1 3, Parser.bind. intros Hc Hk Hinv. specialize (Hc Hinv).
  destruct (c self) as [a self'| |]; [| exact I | exact I].
  exact (Hk a self' eq_refl Hc).
Qed.

Lemma keeps_get {B} (k : Parser.t -> Parser.M B) self :
  keeps (k self) self -> keeps (Parser.bind Parser.get k) self.
Proof. intros H. exact H. Qed.

Lemma keeps_ret {A} (a : A) self : keeps (Parser.ret a) self.
Proof. intros H. exact H. Qed.

Lemma keeps_raise {A} e self : keeps (@Parser.raise A e) self.
Proof. intros _. exact I. Qed.

Lemma keeps_print line self : keeps (Parser.print line) self.
Proof. intros H. exact H. Qed.

Lemma keeps_set_panic_mode b self : keeps (Parser.set_panic_mode b) self.
Proof. intros H. exact H. Qed.

Lemma keeps_advance self : keeps Parser.advance self.
Proof.
  intros _. destruct (Parser.advance self) as [u self'| |] eqn:E;
    [| exact I | exact I].
  exact (advance_generator_invariant self u self' E).
Qed.

Lemma skip_loop_exhausts wanted loud (lex : list Token) :
  forall tok out lex' out',
    Parser.skip_loop wanted loud (Some tok) lex out = (None, lex', out') ->
    lex' = [].
Proof.
  induction lex as [|t lex IH]; intros tok out lex' out';
    cbn [Parser.skip_loop]; destruct (wanted (type tok)).
  - intros H. discriminate H.
  - intros H. now injection H as <- _.
  - intros H. discriminate H.
  - apply IH.
Qed.

Lemma keeps_skip_until wanted loud self : keeps (Parser.skip_until wanted loud) self.
Proof.
  unfold keeps, generator_invariant, Parser.skip_until.
  destruct self as [lex [tok|] panic out];
    cbn [Parser.current_token Parser.lexer Parser.stdout Parser.panic_mode].
  - intros _.
    destruct (Parser.skip_loop wanted loud (Some tok) lex out)
      as [[cur' lex'] out'] eqn:E.
    cbn [Parser.current_token Parser.lexer]. intros ->.
    exact (skip_loop_exhausts _ _ _ _ _ _ _ E).
  - destruct lex; simpl; intros H _; exact (H eq_refl).
Qed.

Lemma keeps_consume expected self : keeps (Parser.consume expected) self.
Proof.
  intros Hinv.
  destruct (Parser.consume expected self) as [u self'| |] eqn:E;
    [| exact I | exact I].
  exact (consume_generator_invariant expected self u self' Hinv E).
Qed.

Lemma keeps_term self : keeps Parser.term self.
Proof.
  unfold Parser.term. apply keeps_get.
  destruct (Parser.current_token self) as [tok|]; [| apply keeps_raise].
  destruct (type_in (type tok) Parser.term_start); [| apply keeps_raise].
  apply keeps_bind; [apply keeps_consume |]. intros. apply keeps_ret.
Qed.

Lemma keeps_expression self : keeps Parser.expression self.
Proof.
  unfold Parser.expression.
  apply keeps_bind; [apply keeps_term |]. intros left_term self1 _.
  apply keeps_get.
  destruct (Parser.current_token self1) as [operator|]; [| apply keeps_ret].
  destruct (negb (Parser.panic_mode self1)
            && type_in (type operator) ["+"; "-"; "*"; "/"]); [| apply keeps_ret].
  apply keeps_bind; [apply keeps_consume |]. intros _ self2 _. apply keeps_get.
  destruct (Parser.current_token self2) as [tok|]; [| apply keeps_raise].
  destruct (negb (type_in (type tok) Parser.term_start)).
  - apply keeps_bind; [apply keeps_set_panic_mode |]. intros. apply keeps_ret.
  - apply keeps_bind; [apply keeps_term |]. intros. apply keeps_raise.
Qed.

Lemma keeps_var_declaration_while (fuel : nat) :
  forall var_type var_nodes self,
    keeps (Parser.var_declaration_while fuel var_type var_nodes) self.
Proof.
  induction fuel as [|fuel IH]; intros var_type var_nodes self; [intros _; exact I |].
  cbn [Parser.var_declaration_while]. apply keeps_get.
  destruct (Parser.current_token self) as [tok|]; [| apply keeps_raise].
  destruct (String.eqb (type tok) "COMMA"); [| apply keeps_ret].
  apply keeps_bind; [apply keeps_consume |]. intros _ self1 _. apply keeps_get.
  destruct (Parser.current_token self1) as [name|]; [| apply keeps_raise].
  apply keeps_bind; [apply keeps_consume |]. intros. apply IH.
Qed.

Lemma keeps_var_declaration (fuel : nat) self :
  keeps (Parser.var_declaration fuel) self.
Proof.
  unfold Parser.var_declaration. apply keeps_get.
  destruct (Parser.current_token self) as [tok|]; [| apply keeps_raise].
  apply keeps_bind; [apply keeps_consume |]. intros _ self1 _. apply keeps_get.
  destruct (Parser.current_token self1) as [name|]; [| apply keeps_raise].
  apply keeps_bind; [apply keeps_consume |]. intros.
  apply keeps_bind; [apply keeps_var_declaration_while |]. intros. apply keeps_ret.
Qed.

Lemma keeps_assignment_while (fuel : nat) :
  forall nodes self, keeps (Parser.assignment_while fuel nodes) self.
Proof.
  induction fuel as [|fuel IH]; intros nodes self; [intros _; exact I |].
  cbn [Parser.assignment_while]. apply keeps_get.
  destruct (Parser.current_token self) as [variable_token|]; [| apply keeps_ret].
  destruct (negb (Parser.panic_mode self) && String.eqb (type variable_token) "ID");
    [| apply keeps_ret].
  apply keeps_bind; [apply keeps_consume |]. intros _ self1 _. apply keeps_get.
  destruct (Parser.current_token self1) as [tok|]; [| apply keeps_raise].
  apply keeps_bind.
  - destruct (String.eqb (type tok) "ASSIGN"); [| apply keeps_ret].
    apply keeps_bind; [apply keeps_consume |]. intros. apply keeps_expression.
  - intros. apply IH.
Qed.

Lemma keeps_for_loop (sl : Parser.M Obj) self :
  (forall self', keeps sl self') -> keeps (Parser.for_loop sl) self.
Proof.
  intros Hsl. unfold Parser.for_loop.
  apply keeps_bind; [apply keeps_consume |]. intros _ self1 _. apply keeps_get.
  assert (Hrec : keeps recovery_for_loop self1).
  { unfold recovery_for_loop. apply keeps_bind; [apply keeps_skip_until |].
    intros. apply keeps_ret. }
  destruct (Parser.panic_mode self1); [exact Hrec |].
  destruct (Parser.current_token self1) as [start_val_token|];
    [| apply keeps_raise].
  destruct (String.eqb (type start_val_token) "ID"); [| exact Hrec].
  apply keeps_bind; [apply keeps_consume |]. intros.
  apply keeps_bind; [apply keeps_consume |]. intros.
  apply keeps_bind; [apply keeps_expression |]. intros.
  apply keeps_bind; [apply keeps_consume |]. intros _ self5 _. apply keeps_get.
  destruct (Parser.current_token self5) as [end_val_token|];
    [| apply keeps_raise].
  apply keeps_bind; [apply keeps_expression |]. intros.
  apply keeps_bind; [apply Hsl |]. intros.
  apply keeps_bind; [apply keeps_consume |]. intros. apply keeps_ret.
Qed.

Lemma keeps_statement (fuel : nat) (sl : Parser.M Obj) self :
  (forall self', keeps sl self') -> keeps (Parser.statement fuel sl) self.
Proof.
  intros Hsl. unfold Parser.statement. apply keeps_get.
  destruct (Parser.panic_mode self).
  { apply keeps_bind; [apply keeps_skip_until |]. intros. apply keeps_ret. }
  destruct (Parser.current_token self) as [tok|]; [| apply keeps_raise].
  destruct (String.eqb (type tok) "PRINT").
  { apply keeps_bind; [apply keeps_consume |]. intros _ self1 _. apply keeps_get.
    apply keeps_bind; [apply keeps_consume |]. intros. apply keeps_ret. }
  destruct (type_in (type tok) ["INTEGER"; "REAL"; "STRING"]).
  { apply keeps_bind; [apply keeps_var_declaration |]. intros. apply keeps_ret. }
  destruct (String.eqb (type tok) "ID").
  { unfold Parser.assignment.
    apply keeps_bind; [| intros; apply keeps_ret].
    apply keeps_bind; [apply keeps_assignment_while |]. intros. apply keeps_ret. }
  destruct (String.eqb (type tok) "FOR"); [| apply keeps_raise].
  apply keeps_bind; [now apply keeps_for_loop |].
  intros [[for_loop_node start_value] end_value] self1 _. apply keeps_ret.
Qed.

Lemma keeps_statement_list_while (fuel : nat) :
  forall node self, keeps (Parser.statement_list_while fuel node) self.
Proof.
  induction fuel as [|fuel IH]; intros node self; [intros _; exact I |].
  cbn [Parser.statement_list_while]. apply keeps_get.
  destruct (negb (Parser.panic_mode self)
            && Parser.at_type self Parser.statement_start); [| apply keeps_ret].
  apply keeps_bind; [apply keeps_statement; intros; apply IH |].
  intros. apply IH.
Qed.

(** *** Tokens skipped in front of the top-level [END] *)

(** The loud skipping loop, on an input whose first wanted token is
    known. *)
Lemma skip_loop_finds (wanted : string -> bool) (junk : list Token) :
  forall tok lex found rest out,
    tok :: lex = (junk ++ found :: rest)%list ->
    Forall (fun t => wanted (type t) = false) junk ->
    wanted (type found) = true ->
    Parser.skip_loop wanted true (Some tok) lex out
    = (Some found, rest, (out ++ map skipping junk)%list).
Proof.
  induction junk as [|j junk IH]; intros tok lex found rest out Heq Hjunk Hw.
  - injection Heq as -> ->. rewrite skip_loop_wanted by exact Hw.
    cbn [map]. now rewrite app_nil_r.
  - cbn [List.app] in Heq. injection Heq as -> ->.
    inversion Hjunk as [|? ? Hj Hjunk']; subst.
    destruct (junk ++ found :: rest)%list as [|tok' lex'] eqn:E.
    + destruct junk; discriminate E.
    + cbn [Parser.skip_loop]. rewrite Hj.
      rewrite (IH tok' lex' found rest _ (eq_sym E) Hjunk' Hw).
      unfold append, skipping. cbn [map]. now rewrite <- app_assoc.
Qed.

(** Whatever the statement list left unread in front of it, [program]
    skips to the first [END], consumes it and returns; what follows the
    [END] stays with the generator. *)
Lemma program_skips_to_END
      (fuel : nat) (self : Parser.t) (stmts : Obj) (self1 : Parser.t)
      (junk : list Token) (end_tok : Token) (trailing : list Token) :
  generator_invariant self ->
  (Parser.consume "BEGIN" ;; Parser.statement_list fuel) self
  = Parser.Return stmts self1 ->
  pending self1 = (junk ++ end_tok :: trailing)%list ->
  Forall skipped_by_program junk ->
  type end_tok = "END" ->
  Parser.program fuel self
  = Parser.Return
      (Node "Program" [stmts] None)
      (reading trailing false
         (Parser.stdout self1 ++ map skipping junk
          ++ if Parser.panic_mode self1 then [] else ["Consuming: END"])%list).
Proof.
  intros Hinv H Hpend Hjunk Hty.
  assert (Hinv1 : generator_invariant self1).
  { apply bind_Return in H. destruct H as (u & self0 & Hc & Hs).
    pose proof (keeps_consume "BEGIN" self Hinv) as H0. rewrite Hc in H0.
    pose proof (keeps_statement_list_while fuel (Node "Statements" [] None)
                  self0 H0) as H1.
    unfold Parser.statement_list in Hs. now rewrite Hs in H1. }
  unfold Parser.program.
  unfold Parser.bind at 1 in H. unfold Parser.bind at 1.
  destruct (Parser.consume "BEGIN" self) as [u self0| |]; try discriminate H.
  unfold Parser.bind at 1. rewrite H.
  destruct self1 as [lex [tok|] panic out]; unfold pending in Hpend;
    cbn [Parser.current_token Parser.lexer] in Hpend.
  2:{ pose proof (Hinv1 eq_refl) as Hl. cbn [Parser.lexer] in Hl.
      rewrite Hpend in Hl. destruct junk; discriminate Hl. }
  unfold Parser.bind at 1, Parser.skip_until.
  cbn [Parser.panic_mode Parser.current_token Parser.lexer Parser.stdout].
  rewrite (skip_loop_finds (fun ty => type_in ty ["END"; "BEGIN"])
             junk tok lex end_tok trailing out Hpend Hjunk)
    by (now rewrite Hty).
  unfold Parser.bind, Parser.get, Parser.at_type.
  cbn [Parser.panic_mode Parser.current_token Parser.lexer Parser.stdout].
  rewrite Hty. cbn [type_in existsb String.eqb Ascii.eqb Bool.eqb orb].
  unfold Parser.ret at 1.
  cbn [Parser.panic_mode Parser.current_token Parser.lexer Parser.stdout].
  rewrite Hty. cbn [String.eqb Ascii.eqb Bool.eqb orb].
  rewrite (consume_current "END" end_tok trailing panic _ Hty).
  rewrite Hty. unfold Parser.ret. cbn [add_child].
  now rewrite <- app_assoc.
Qed.

(** C4 (amended).  Whenever the top-level [END] is consumed, that is,
    whenever the first [END] or [BEGIN] among the tokens the statement
    list left unread is an [END], [parse] returns the [Program] node,
    whatever tokens follow the [END]: they stay unread, the first of them
    as the current token, and nothing is printed about them.  The lines
    printed after the statement list are those for the tokens [program]
    skips in front of the [END] and the one for the [END] itself. *)
Theorem parse_leaves_trailing_tokens
        (fuel : nat) (toks : list Token) (first : Token) (rest : list Token)
        (stmts : Obj) (self1 : Parser.t)
        (junk : list Token) (end_tok : Token) (trailing : list Token) :
  toks = first :: rest ->
  (Parser.consume "BEGIN" ;; Parser.statement_list fuel)
    (reading toks false []) = Parser.Return stmts self1 ->
  pending self1 = (junk ++ end_tok :: trailing)%list ->
  Forall skipped_by_program junk ->
  type end_tok = "END" ->
  Parser.parse fuel (Parser.init toks)
  = Parser.Return
      (Node "Program" [stmts] None)
      (reading trailing false
         (Parser.stdout self1 ++ map skipping junk
          ++ if Parser.panic_mode self1 then [] else ["Consuming: END"])%list).
Proof.
  intros -> H Hpend Hjunk Hty.
  unfold Parser.parse, Parser.init.
  cbn [Parser.lexer Parser.panic_mode Parser.stdout].
  apply (program_skips_to_END fuel _ stmts self1 junk end_tok trailing);
    auto.
  intros Hcur. discriminate Hcur.
Qed.

Lemma parse_leaves_trailing_tokens_witness :
  Parser.parse 10
    (Parser.init (lexer ("BEGIN A := 1 + 2 END PRINT " ++ q "X")))
  = Parser.Return
      (Node "Program"
         [Node "Statements"
            [Node "Assignment"
               [Node "Assignments"
                  [assignment_node (mkToken "ID" "A" 3 1)
                     (Node "Value" [Tok (mkToken "INT" "1" 7 1)] None)]
                  None]
               None]
            None]
         None)
      (reading [mkToken "PRINT" "PRINT" 14 1;
                mkToken "STRING_LITERAL" (q "X") 16 1]
         false
         (Parser.stdout
            (Parser.mk [mkToken "INT" "2" 10 1; mkToken "END" "END" 12 1;
                        mkToken "PRINT" "PRINT" 14 1;
                        mkToken "STRING_LITERAL" (q "X") 16 1]
                       (Some (mkToken "OPERATOR" "+ " 9 1)) false
                       ["Consuming: BEGIN"; "Consuming: ID";
                        "Consuming: ASSIGN"; "Consuming: INT"])
          ++ map skipping [mkToken "OPERATOR" "+ " 9 1; mkToken "INT" "2" 10 1]
          ++ if Parser.panic_mode
                  (Parser.mk [mkToken "INT" "2" 10 1; mkToken "END" "END" 12 1;
                              mkToken "PRINT" "PRINT" 14 1;
                              mkToken "STRING_LITERAL" (q "X") 16 1]
                             (Some (mkToken "OPERATOR" "+ " 9 1)) false
                             ["Consuming: BEGIN"; "Consuming: ID";
                              "Consuming: ASSIGN"; "Consuming: INT"])
             then [] else ["Consuming: END"])%list).
Proof.
  apply (parse_leaves_trailing_tokens 10
           (lexer ("BEGIN A := 1 + 2 END PRINT " ++ q "X"))
           (mkToken "BEGIN" "BEGIN" 1 1)
           [mkToken "ID" "A" 3 1; mkToken "ASSIGN" ":=" 5 1;
            mkToken "INT" "1" 7 1; mkToken "OPERATOR" "+ " 9 1;
            mkToken "INT" "2" 10 1; mkToken "END" "END" 12 1;
            mkToken "PRINT" "PRINT" 14 1;
            mkToken "STRING_LITERAL" (q "X") 16 1]
           (Node "Statements"
              [Node "Assignment"
                 [Node "Assignments"
                    [assignment_node (mkToken "ID" "A" 3 1)
                       (Node "Value" [Tok (mkToken "INT" "1" 7 1)] None)]
                    None]
                 None]
              None)
           (Parser.mk [mkToken "INT" "2" 10 1; mkToken "END" "END" 12 1;
                       mkToken "PRINT" "PRINT" 14 1;
                       mkToken "STRING_LITERAL" (q "X") 16 1]
                      (Some (mkToken "OPERATOR" "+ " 9 1)) false
                      ["Consuming: BEGIN"; "Consuming: ID";
                       "Consuming: ASSIGN"; "Consuming: INT"])
           [mkToken "OPERATOR" "+ " 9 1; mkToken "INT" "2" 10 1]
           (mkToken "END" "END" 12 1)
           [mkToken "PRINT" "PRINT" 14 1;
            mkToken "STRING_LITERAL" (q "X") 16 1]).
  - vm_compute. reflexivity.
  - vm_compute. reflexivity.
  - reflexivity.
  - repeat constructor.
  - reflexivity.
Defined.

(** The same program run as a whole: the operator and the second operand
    are skipped, the [END] is consumed, the [PRINT] after it is left. *)
Example parse_assignment_then_trailing_PRINT :
  parse_source ("BEGIN A := 1 + 2 END PRINT " ++ q "X")
  = Parser.Return
      (Node "Program"
         [Node "Statements"
            [Node "Assignment"
               [Node "Assignments"
                  [assignment_node (mkToken "ID" "A" 3 1)
                     (Node "Value" [Tok (mkToken "INT" "1" 7 1)] None)]
                  None]
               None]
            None]
         None)
      (Parser.mk [mkToken "STRING_LITERAL" (q "X") 16 1]
                 (Some (mkToken "PRINT" "PRINT" 14 1)) false
                 ["Consuming: BEGIN"; "Consuming: ID"; "Consuming: ASSIGN";
                  "Consuming: INT"; "Skipping: OPERATOR"; "Skipping: INT";
                  "Consuming: END"]).
Proof. vm_compute. reflexivity. Qed.

(** *** The node of a declaration statement *)







(* ===================================================================== *)
(** ** The matcher and the patterns *)

Lemma rmatch_sound (r : regex) :
  forall s k rest,
    rmatch r s k = Some rest ->
    exists u s', s = u ++ s' /\ matches r u /\ k s' = Some rest.
Proof.
  induction r as [l|p|r1 IH1 r2 IH2|r IH|p|p]; intros s k rest; cbn [rmatch].
  - destruct (strip_prefix l s) as [s'|] eqn:E; [| discriminate].
    apply strip_prefix_app in E. subst s. intros H.
    exists l, s'. auto using matches.
  - destruct s as [|c s]; [discriminate |]. destruct (p c) eqn:Hc; [| discriminate].
    intros H. exists (String c ""), s. auto using matches.
  - intros H. apply IH1 in H. destruct H as (u1 & s1 & -> & M1 & H).
    apply IH2 in H. destruct H as (u2 & s2 & -> & M2 & H).
    exists (u1 ++ u2), s2. rewrite append_assoc. auto using matches.
  - destruct (rmatch r s k) as [rest'|] eqn:E.
    + intros [= <-]. apply IH in E. destruct E as (u & s' & -> & M & H).
      exists u, s'. auto using matches.
    + intros H. exists "", s. auto using matches.
  - destruct s as [|c s]; [discriminate |]. destruct (p c) eqn:Hc; [| discriminate].
    intros H. apply star_inv in H. destruct H as (a & b & -> & Ha & H).
    exists (String c a), b. auto using matches.
  - intros H. apply star_inv in H. destruct H as (a & b & -> & Ha & H).
    exists a, b. auto using matches.
Qed.

Lemma star_continues p s (k : string -> option string) :
  k s <> None -> star p s k <> None.
Proof.
  intros H. destruct s as [|c s]; [exact H |]. simpl.
  destruct (p c); [| exact H]. destruct (star p s k); [discriminate | exact H].
Qed.

Lemma star_complete p u s (k : string -> option string) :
  all_chars p u = true -> k s <> None -> star p (u ++ s) k <> None.
Proof.
  intros Hu Hk. induction u as [|c u IH]; [now apply star_continues |].
  simpl in Hu. apply andb_prop in Hu. destruct Hu as [Hc Hu]. simpl.
  rewrite Hc. specialize (IH Hu).
  destruct (star p (u ++ s) k); [discriminate | contradiction].
Qed.

Lemma rmatch_complete (r : regex) (u : string) :
  matches r u ->
  forall s k, k s <> None -> rmatch r (u ++ s) k <> None.
Proof.
  induction 1 as [l|p c Hc|r1 r2 u1 u2 _ IH1 _ IH2|r|r u _ IH|p c u Hc Hu|p u Hu];
    intros s k Hk; cbn [rmatch].
  - now rewrite strip_prefix_self.
  - simpl. now rewrite Hc.
  - rewrite append_assoc. apply IH1. now apply IH2.
  - simpl. destruct (rmatch r s k); [discriminate | exact Hk].
  - specialize (IH s k Hk). destruct (rmatch r (u ++ s) k); [discriminate | contradiction].
  - simpl. rewrite Hc. now apply star_complete.
  - now apply star_complete.
Qed.

Lemma match_alternatives_first spec s name v rest :
  match_alternatives spec s = Some (name, v, rest) ->
  exists earlier r later,
    spec = (earlier ++ (name, r) :: later)%list
    /\ Forall (fun nr => rmatch (snd nr) s Some = None) earlier
    /\ rmatch r s Some = Some rest
    /\ v = matched s rest.
Proof.
  induction spec as [|[n r] spec IH]; simpl; [discriminate |].
  destruct (rmatch r s Some) as [rest'|] eqn:E.
  - intros [= <- <- <-]. exists [], r, spec. auto.
  - intros H. destruct (IH H) as (earlier & r' & later & -> & HF & Hr & Hv).
    exists ((n, r) :: earlier), r', later. repeat split; auto.
Qed.

(** X17.  The text of every token is a text of the pattern that
    [token_specification] lists under the token's type. *)
Theorem lexer_token_matches_its_pattern (s : string) (t : Token) :
  In t (lexer s) ->
  exists r, In (type t, r) token_specification /\ matches r (value t).
Proof.
  intros Hin. apply lexer_matches_origin in Hin.
  destruct Hin as (pre & s' & rest & _ & Hm & _).
  apply match_alternatives_In in Hm. destruct Hm as (r & Hr & Hm & Hv).
  exists r. split; [exact Hr |].
  apply rmatch_sound in Hm. destruct Hm as (u & s'' & -> & M & [= ->]).
  rewrite Hv, matched_app. exact M.
Qed.

Lemma lexer_token_matches_its_pattern_witness :
  exists r, In ("FLOAT", r) token_specification /\ matches r "-3.56E-8".
Proof.
  apply (lexer_token_matches_its_pattern "D := -3.56E-8"
           (mkToken "FLOAT" "-3.56E-8" 5 1)).
  vm_compute. tauto.
Defined.

(** X18.  The order of [token_specification] decides: where the lexer
    took a token, no pattern listed before the token's own describes any
    text that starts there.  So an [INT] is never the start of a
    [FLOAT], and an [ID] never starts with a keyword. *)
Theorem lexer_first_alternative_wins (s : string) (t : Token) :
  In t (lexer s) ->
  exists pre s' earlier r later,
    s = pre ++ s'
    /\ starts_with (value t) s' = true
    /\ token_specification = (earlier ++ (type t, r) :: later)%list
    /\ forall name' r' u rest,
         In (name', r') earlier -> s' = u ++ rest -> ~ matches r' u.
Proof.
  intros Hin. apply lexer_matches_origin in Hin.
  destruct Hin as (pre & s' & rest & E & Hm & _).
  destruct (token_pattern_prefix _ _ _ _ Hm) as [Hs' _].
  apply match_alternatives_first in Hm.
  destruct Hm as (earlier & r & later & Hspec & HF & _ & _).
  exists pre, s', earlier, r, later.
  split; [exact E |]. split.
  { unfold starts_with. rewrite Hs' at 1. now rewrite strip_prefix_self. }
  split; [exact Hspec |].
  intros name' r' u rest' Hin' -> M.
  rewrite Forall_forall in HF. specialize (HF _ Hin'). cbn [snd] in HF.
  apply (rmatch_complete r' u M rest' Some); [discriminate | exact HF].
Qed.

Lemma lexer_first_alternative_wins_witness :
  exists pre s' earlier r later,
    "A := 12" = pre ++ s'
    /\ starts_with "12" s' = true
    /\ token_specification = (earlier ++ ("INT", r) :: later)%list
    /\ forall name' r' u rest,
         In (name', r') earlier -> s' = u ++ rest -> ~ matches r' u.
Proof.
  apply (lexer_first_alternative_wins "A := 12" (mkToken "INT" "12" 5 1)).
  vm_compute. tauto.
Defined.
